(** * IO stub generator: resolution and emission pipeline

    A shallow embedding of [src/io/stub_generator.py].  The generator reads a
    registry of file handlers (modality -> record), flattens it into a table
    suffix -> entry, groups the resolved return types by modality and renders
    the text of a [.pyi] stub.

    Conventions of the embedding.
    - A Python [str] is a [string]: its text as bytes.  Python compares
      strings code point by code point, which on UTF-8 text is the byte-wise
      lexicographic order [String.compare].  [str.lower] is modelled on the
      ASCII letters: a suffix with other cased characters is outside the
      model, and what is proved of the case of a key is stated for ASCII
      suffixes.
    - A Python [dict] is an association list in insertion order: assigning
      to a present key replaces the value in place, assigning to a new key
      appends.  Iteration follows the list.
    - A Python [set] of strings is the duplicate-free list of its members;
      the order in which the interpreter yields them is not fixed by the
      language, so every traversal of a set goes through a [SetOrder]. *)

From Stdlib Require Import List String Ascii Bool Arith NArith Lia.
From Stdlib Require Import Permutation Sorted DecimalString.
Import ListNotations.
Open Scope string_scope.
Open Scope list_scope.

Set Implicit Arguments.

(** ** Strings *)

Module Str.

(** The double quote character, and the newline that joins the lines. *)
Definition dq : string := String (ascii_of_nat 34) EmptyString.
Definition nl : string := String (ascii_of_nat 10) EmptyString.

Definition is_upper (c : ascii) : bool :=
  let n := nat_of_ascii c in ((65 <=? n)%nat && (n <=? 90)%nat)%bool.

Definition lower_char (c : ascii) : ascii :=
  if is_upper c then ascii_of_nat (nat_of_ascii c + 32) else c.

(** [s.lower()] on ASCII text: the letters A to Z are lowered, every other
    character is kept. *)
Fixpoint lower (s : string) : string :=
  match s with
  | EmptyString => EmptyString
  | String c r => String (lower_char c) (lower r)
  end.

(** [s.lstrip(".")]: every leading dot goes, not only the first. *)
Fixpoint lstrip_dot (s : string) : string :=
  match s with
  | String c r => if Ascii.eqb c "." then lstrip_dot r else s
  | EmptyString => EmptyString
  end.

(** [sep.join(l)] *)
Definition join (sep : string) (l : list string) : string := String.concat sep l.

(** No upper-case ASCII letter occurs in [s]. *)
Fixpoint no_upper (s : string) : bool :=
  match s with
  | EmptyString => true
  | String c r => negb (is_upper c) && no_upper r
  end.

(** [s.startswith(".")] *)
Definition starts_with_dot (s : string) : bool :=
  match s with
  | String c _ => Ascii.eqb c "."
  | EmptyString => false
  end.

(** [x in l] for a container of strings. *)
Definition mem (x : string) (l : list string) : bool :=
  existsb (String.eqb x) l.

End Str.

(** ** Sets of strings *)

(** The order in which a set yields its members.  Python leaves it open
    (it follows the hashes of the members, which change from one interpreter
    run to the next), so it is a parameter: any rearrangement of the
    members. *)
Record SetOrder : Type := {
  iter : list string -> list string;
  iter_perm : forall l, Permutation l (iter l)
}.

Module PySet.

Definition t : Type := list string.

(** [set()] *)
Definition empty : t := [].

(** [s.add(x)] *)
Definition add (x : string) (s : t) : t :=
  if Str.mem x s then s else s ++ [x].

(** [set(l)] *)
Definition of_list (l : list string) : t :=
  fold_left (fun s x => add x s) l empty.

(** [s.update(other)], [other] a set *)
Definition update (o : SetOrder) (s other : t) : t :=
  fold_left (fun s x => add x s) (iter o other) s.

End PySet.

(** [sorted(...)] on strings.  The result of a stable sort by [<=] is what
    insertion from the right computes. *)
Fixpoint insert (x : string) (l : list string) : list string :=
  match l with
  | [] => [x]
  | y :: r => if String.leb x y then x :: l else y :: insert x r
  end.

Definition sorted (l : list string) : list string :=
  fold_right insert [] l.

(** ** Dictionaries with string keys *)

Module Dict.
Section Dict.
Variable V : Type.

Definition t : Type := list (string * V).

(** [d.get(k)] *)
Fixpoint get (k : string) (d : t) : option V :=
  match d with
  | [] => None
  | (k', v) :: r => if String.eqb k k' then Some v else get k r
  end.

(** [d[k] = v] *)
Fixpoint set (k : string) (v : V) (d : t) : t :=
  match d with
  | [] => [(k, v)]
  | (k', v') :: r =>
      if String.eqb k k' then (k, v) :: r else (k', v') :: set k v r
  end.

(** [k in d] *)
Definition mem (k : string) (d : t) : bool :=
  existsb (fun kv => String.eqb k (fst kv)) d.

(** [d.get(k, default)] *)
Definition get_default (k : string) (d : t) (default : V) : V :=
  match get k d with
  | Some v => v
  | None => default
  end.

Definition keys (d : t) : list string := map fst d.
End Dict.
End Dict.

(** ** The registry *)

(** A handler class: its [__name__] and, when the class defines one, its
    [return_type] attribute. *)
Record Handler : Type := {
  cls_name : string;
  cls_return_type : option string
}.

(** One modality's record.  [BaseIO] and the values of [Custom] may be
    [None]; a handler class itself is always truthy. *)
Record ModalityRecord : Type := {
  BaseIO : option Handler;
  base_suffixes : list string;
  Custom : Dict.t (option Handler)
}.

(** [IORegistry], as [_collect_suffix_info] reads it: [IORegistry.items()]
    in iteration order (each record read with [registry.get], so an absent
    key counts as [None], no suffix, no override) and
    [IORegistry.collision_suffix]. *)
Record SuffixRegistry : Type := {
  items : Dict.t ModalityRecord;
  collision_suffix : list string
}.

Record SuffixEntry : Type := {
  handler : Handler;
  return_type : string;
  modality : string;
  is_collision : bool
}.

(** ** Static tables *)

Definition DEFAULT_RETURN_TYPES : Dict.t string :=
  [ ("BaseImage", "PIL.Image.Image");
    ("BaseText", "str");
    ("JsonText", "dict[str, Any]");
    ("YamlText", "dict[str, Any]");
    ("BaseVideo", "torchvision.io.VideoReader") ].

Definition TYPE_IMPORTS : Dict.t string :=
  [ ("PIL.Image.Image", "from PIL.Image import Image as PILImage");
    ("torchvision.io.VideoReader", "from torchvision.io import VideoReader") ].

Definition TYPE_STUB_NAMES : Dict.t string :=
  [ ("PIL.Image.Image", "PILImage");
    ("torchvision.io.VideoReader", "VideoReader") ].

(** ** Type resolution *)

Definition _get_handler_return_type (handler_class : Handler) : string :=
  match cls_return_type handler_class with
  | Some declared => declared
  | None =>
      let class_name := cls_name handler_class in
      Dict.get_default class_name DEFAULT_RETURN_TYPES "Any"
  end.

(** ** Suffix resolution *)

(** [suffix.lstrip(".").lower()] *)
Definition normalize (suffix : string) : string :=
  Str.lower (Str.lstrip_dot suffix).

(** The descriptor the two loops of [_collect_suffix_info] store. *)
Definition entry_of (collision_suffixes : list string) (modality : string)
    (h : Handler) (suffix_lower : string) : SuffixEntry :=
  {| handler := h;
     return_type := _get_handler_return_type h;
     modality := modality;
     is_collision := Str.mem suffix_lower collision_suffixes |}.

(** The loop over the base suffixes, run when [base_io] is truthy. *)
Definition collect_base (collision_suffixes : list string) (modality : string)
    (base_io : Handler) (custom_handlers : Dict.t (option Handler))
    (suffixes : list string) (suffix_info : Dict.t SuffixEntry)
    : Dict.t SuffixEntry :=
  fold_left
    (fun info suffix =>
       let suffix_lower := normalize suffix in
       if negb (Dict.mem suffix_lower custom_handlers)
       then Dict.set suffix_lower
              (entry_of collision_suffixes modality base_io suffix_lower) info
       else info)
    suffixes suffix_info.

(** The loop over the custom handlers. *)
Definition collect_custom (collision_suffixes : list string) (modality : string)
    (custom_handlers : Dict.t (option Handler))
    (suffix_info : Dict.t SuffixEntry) : Dict.t SuffixEntry :=
  fold_left
    (fun info (item : string * option Handler) =>
       match snd item with
       | Some h =>
           let suffix_lower := normalize (fst item) in
           Dict.set suffix_lower
             (entry_of collision_suffixes modality h suffix_lower) info
       | None => info
       end)
    custom_handlers suffix_info.

(** The body of the loop over the registry's items. *)
Definition collect_modality (o : SetOrder) (collision_suffixes : list string)
    (suffix_info : Dict.t SuffixEntry) (item : string * ModalityRecord)
    : Dict.t SuffixEntry :=
  let modality := fst item in
  let registry := snd item in
  let base_io := BaseIO registry in
  let base_suffixes := PySet.of_list (base_suffixes registry) in
  let custom_handlers := Custom registry in
  let suffix_info :=
    match base_io with
    | Some b =>
        collect_base collision_suffixes modality b custom_handlers
          (iter o base_suffixes) suffix_info
    | None => suffix_info
    end in
  collect_custom collision_suffixes modality custom_handlers suffix_info.

Definition _collect_suffix_info (o : SetOrder) (IORegistry : SuffixRegistry)
    : Dict.t SuffixEntry :=
  let collision_suffixes := collision_suffix IORegistry in
  fold_left (collect_modality o collision_suffixes) (items IORegistry) [].

(** ** Grouping by modality *)

Definition _group_by_modality (suffix_info : Dict.t SuffixEntry)
    : Dict.t PySet.t :=
  fold_left
    (fun groups (item : string * SuffixEntry) =>
       let info := snd item in
       let groups :=
         if negb (Dict.mem (modality info) groups)
         then Dict.set (modality info) PySet.empty groups
         else groups in
       Dict.set (modality info)
         (PySet.add (return_type info)
            (Dict.get_default (modality info) groups PySet.empty))
         groups)
    suffix_info [].

(** ** Union building and the overload of one modality *)

(** [TYPE_STUB_NAMES.get(t, t)] *)
Definition stub_name (t : string) : string :=
  Dict.get_default t TYPE_STUB_NAMES t.

(** The return type of a modality's overload, as the first statement of
    [_generate_modality_overload] computes it. *)
Definition stub_type_of (o : SetOrder) (return_types : PySet.t) : string :=
  if (List.length return_types =? 1)%nat then
    let return_type := hd EmptyString (iter o return_types) in
    stub_name return_type
  else
    let type_strs := map stub_name (sorted (iter o return_types)) in
    ("Union[" ++ Str.join ", " type_strs ++ "]")%string.

(** A text between double quotes. *)
Definition quoted (s : string) : string := (Str.dq ++ s ++ Str.dq)%string.

Definition _generate_modality_overload (o : SetOrder) (modality : string)
    (return_types : PySet.t) : list string :=
  let stub_type := stub_type_of o return_types in
  [ ("    # modality=" ++ quoted modality)%string;
    "    @overload";
    "    def load(";
    "        self,";
    "        path: Union[str, PathLike[str]],";
    ("        modality: Literal[" ++ quoted modality ++ "],")%string;
    "        collision_dict: Optional[dict[str, str]] = None,";
    "        **kwargs: Any,";
    ("    ) -> " ++ stub_type ++ ": ...")%string;
    EmptyString ].

(** ** The text of the stub *)

Definition HEADER : list string :=
  [ (Str.dq ++ Str.dq ++ Str.dq)%string;
    "Auto-generated stub file for IO.load() type hints.";
    EmptyString;
    "Generated by: python -m CLTrainingFramework.io";
    "Do not edit manually - regenerate after registering new handlers.";
    EmptyString;
    "Usage:";
    ("    image = IO.load(" ++ quoted "test.png" ++ ", modality="
       ++ quoted "Image" ++ ")  # -> PILImage")%string;
    ("    text = IO.load(" ++ quoted "file.txt" ++ ", modality="
       ++ quoted "Text" ++ ")    # -> str")%string;
    ("    data = IO.load(" ++ quoted "config.json" ++ ", modality="
       ++ quoted "Text" ++ ") # -> Union[str, dict]")%string;
    ("    video = IO.load(" ++ quoted "clip.mp4" ++ ", modality="
       ++ quoted "Video" ++ ")  # -> VideoReader")%string;
    (Str.dq ++ Str.dq ++ Str.dq)%string;
    EmptyString;
    "from typing import overload, Union, Optional, Any, Literal";
    "from os import PathLike" ].

Definition CLASS_HEAD : list string :=
  [ EmptyString;
    EmptyString;
    "class IO:";
    ("    " ++ Str.dq ++ Str.dq ++ Str.dq)%string;
    "    IO Router with type inference based on modality parameter.";
    EmptyString;
    "    When modality is specified, returns the corresponding type.";
    "    Without modality, returns Any (suffix-based auto-detection at runtime).";
    ("    " ++ Str.dq ++ Str.dq ++ Str.dq)%string;
    EmptyString;
    "    def __init__(self, modality: Optional[str] = None) -> None: ...";
    EmptyString ].

Definition FALLBACK : list string :=
  [ "    # Fallback when modality is not specified (auto-detection)";
    "    @overload";
    "    def load(";
    "        self,";
    "        path: Union[str, PathLike[str]],";
    "        modality: None = None,";
    "        collision_dict: Optional[dict[str, str]] = None,";
    "        **kwargs: Any,";
    "    ) -> Any: ...";
    EmptyString;
    "    # Implementation signature";
    "    def load(";
    "        self,";
    "        path: Union[str, PathLike[str]],";
    "        modality: Optional[str] = None,";
    "        collision_dict: Optional[dict[str, str]] = None,";
    "        **kwargs: Any,";
    "    ) -> Any: ...";
    EmptyString;
    "    def write(";
    "        self,";
    "        path: Union[str, PathLike[str]],";
    "        data: Any,";
    "        modality: Optional[str] = None,";
    "        collision_dict: Optional[dict[str, str]] = None,";
    "        **kwargs: Any,";
    "    ) -> None: ...";
    EmptyString;
    "    def get_io(";
    "        self,";
    "        path: Union[str, PathLike[str]],";
    "        modality: Optional[str] = None,";
    "        collision_dict: Optional[dict[str, str]] = None,";
    "    ) -> Any: ...";
    EmptyString;
    "    def delete_cache(self, name: str) -> None: ...";
    EmptyString ].

Definition modality_order : list string := ["Image"; "Text"; "Video"].

(** The union of all the groups: the loop over [modality_groups.values()]. *)
Definition all_return_types_of (o : SetOrder) (modality_groups : Dict.t PySet.t)
    : PySet.t :=
  fold_left (fun acc (item : string * PySet.t) => PySet.update o acc (snd item))
    modality_groups PySet.empty.

(** The imports the types need: the loop over [all_return_types]. *)
Definition imports_needed_of (o : SetOrder) (all_return_types : PySet.t)
    : PySet.t :=
  fold_left
    (fun acc return_type =>
       if Dict.mem return_type TYPE_IMPORTS
       then PySet.add (Dict.get_default return_type TYPE_IMPORTS EmptyString) acc
       else acc)
    (iter o all_return_types) PySet.empty.

(** The lines appended by [for imp in sorted(imports_needed)]. *)
Definition import_lines (o : SetOrder) (modality_groups : Dict.t PySet.t)
    : list string :=
  sorted (iter o (imports_needed_of o (all_return_types_of o modality_groups))).

(** The overloads of the modalities of the fixed list that have a group. *)
Definition ordered_overloads (o : SetOrder) (modality_groups : Dict.t PySet.t)
    (lines : list string) : list string :=
  fold_left
    (fun lines modality =>
       match Dict.get modality modality_groups with
       | Some return_types =>
           lines ++ _generate_modality_overload o modality return_types
       | None => lines
       end)
    modality_order lines.

(** The overloads of the other modalities, in the order of the groups. *)
Definition other_overloads (o : SetOrder) (modality_groups : Dict.t PySet.t)
    (lines : list string) : list string :=
  fold_left
    (fun lines (item : string * PySet.t) =>
       if negb (Str.mem (fst item) modality_order)
       then lines ++ _generate_modality_overload o (fst item) (snd item)
       else lines)
    modality_groups lines.

(** The list [lines] of [_generate_stub_content] when it is joined. *)
Definition stub_lines (o : SetOrder) (suffix_info : Dict.t SuffixEntry)
    : list string :=
  let modality_groups := _group_by_modality suffix_info in
  let lines := HEADER in
  let lines := lines ++ import_lines o modality_groups in
  let lines := lines ++ CLASS_HEAD in
  let lines := ordered_overloads o modality_groups lines in
  let lines := other_overloads o modality_groups lines in
  lines ++ FALLBACK.

Definition _generate_stub_content (o : SetOrder)
    (suffix_info : Dict.t SuffixEntry) : string :=
  Str.join Str.nl (stub_lines o suffix_info).

(** What [generate_io_stubs] writes to [Mapping.pyi]. *)
Definition generate_io_stubs_content (o : SetOrder) (IORegistry : SuffixRegistry)
    : string :=
  let suffix_info := _collect_suffix_info o IORegistry in
  _generate_stub_content o suffix_info.

(** ** Writing the stub *)

(** The file system as [generate_io_stubs] uses it, through [pathlib]: the
    directory of the module ([Path(__file__).parent]), the child of a
    directory ([output_dir / name]) and [write_text], which either leaves a
    new state of the file system or raises. *)
Record FileOps (Path FS : Type) : Type := {
  module_dir : Path;
  child : Path -> string -> Path;
  write_text : Path -> string -> FS -> option FS
}.

(** [generate_io_stubs(output_dir)]: the path of the stub and the file
    system after the write, or [None] when the write raises. *)
Definition generate_io_stubs (Path FS : Type) (io : FileOps Path FS)
    (o : SetOrder) (IORegistry : SuffixRegistry) (output_dir : option Path)
    (fs : FS) : option (Path * FS) :=
  let output_dir :=
    match output_dir with
    | None => module_dir io
    | Some d => d
    end in
  let output_file := child io output_dir "Mapping.pyi" in
  let suffix_info := _collect_suffix_info o IORegistry in
  let content := _generate_stub_content o suffix_info in
  match write_text io output_file content fs with
  | Some fs' => Some (output_file, fs')
  | None => None
  end.

(** ** The summary of the registry *)

(** [s * n] *)
Fixpoint times (s : string) (n : nat) : string :=
  match n with
  | 0 => EmptyString
  | S n => (s ++ times s n)%string
  end.

(** [str(n)] for a length. *)
Definition str_of_nat (n : nat) : string :=
  NilEmpty.string_of_uint (Nat.to_uint n).

(** [[s for s, info in suffix_info.items() if info["modality"] == modality]] *)
Definition suffixes_of (suffix_info : Dict.t SuffixEntry) (modality_name : string)
    : list string :=
  map fst
    (filter (fun item : string * SuffixEntry =>
               String.eqb (modality (snd item)) modality_name)
       suffix_info).

(** The two lines printed for one modality. *)
Definition summary_rows (o : SetOrder) (suffix_info : Dict.t SuffixEntry)
    (item : string * PySet.t) : list string :=
  let suffixes := suffixes_of suffix_info (fst item) in
  [ ("  " ++ fst item ++ ": " ++ str_of_nat (List.length suffixes)
       ++ " suffixes")%string;
    ("    Return types: " ++ Str.join ", " (sorted (iter o (snd item))))%string ].

(** [print_registry_summary()]: the texts it prints, one per call of
    [print].  The collision container is a set: it counts as true when it
    has a member, and [str] shows its members in the order the interpreter
    yields them.  [show] is that rendering of the members in their order;
    the class of the container is not part of these sources. *)
Definition print_registry_summary (o : SetOrder) (show : list string -> string)
    (IORegistry : SuffixRegistry) : list string :=
  let suffix_info := _collect_suffix_info o IORegistry in
  let modality_groups := _group_by_modality suffix_info in
  let out := ["IORegistry Summary:"; times "-" 40] in
  let out :=
    fold_left (fun out item => out ++ summary_rows o suffix_info item)
      modality_groups out in
  let collision := collision_suffix IORegistry in
  match collision with
  | _ :: _ =>
      out ++ [(Str.nl ++ "Collision suffixes: " ++ show (iter o collision))%string]
  | [] => out
  end.

(** ** Two set orders to run the model with *)

Definition insertion_order : SetOrder :=
  {| iter := fun l => l; iter_perm := fun l => Permutation_refl l |}.

Definition reversed_order : SetOrder :=
  {| iter := fun l => rev l; iter_perm := fun l => Permutation_rev l |}.

(** * Properties *)

(** ** The order of [sorted] on strings *)

Module StrOrder.

Lemma ascii_compare_refl (a : ascii) : Ascii.compare a a = Eq.
Proof. unfold Ascii.compare. apply N.compare_refl. Qed.

Lemma ascii_compare_lt_trans (a b c : ascii) :
  Ascii.compare a b = Lt -> Ascii.compare b c = Lt -> Ascii.compare a c = Lt.
Proof.
  unfold Ascii.compare. rewrite !N.compare_lt_iff. apply N.lt_trans.
Qed.

Lemma compare_refl (s : string) : String.compare s s = Eq.
Proof.
  induction s as [|a s IH]; simpl; [reflexivity|].
  now rewrite ascii_compare_refl.
Qed.

Lemma compare_lt_trans (s1 s2 s3 : string) :
  String.compare s1 s2 = Lt -> String.compare s2 s3 = Lt ->
  String.compare s1 s3 = Lt.
Proof.
  revert s2 s3.
  induction s1 as [|a s1 IH]; intros [|b s2] [|c s3]; simpl; try congruence.
  destruct (Ascii.compare a b) eqn:Hab; try discriminate.
  - apply Ascii.compare_eq_iff in Hab; subst b.
    destruct (Ascii.compare a c) eqn:Hac; try congruence.
    intros H1 H2. eapply IH; eassumption.
  - destruct (Ascii.compare b c) eqn:Hbc; try discriminate.
    + apply Ascii.compare_eq_iff in Hbc; subst c. now rewrite Hab.
    + now rewrite (ascii_compare_lt_trans _ _ _ Hab Hbc).
Qed.

Lemma leb_false_lt (s1 s2 : string) :
  String.leb s1 s2 = false -> String.compare s2 s1 = Lt.
Proof.
  unfold String.leb. rewrite String.compare_antisym.
  destruct (String.compare s2 s1); simpl; congruence.
Qed.

Lemma leb_true_cases (s1 s2 : string) :
  String.leb s1 s2 = true -> s1 = s2 \/ String.compare s1 s2 = Lt.
Proof.
  unfold String.leb. destruct (String.compare s1 s2) eqn:H; try discriminate.
  - left. now apply String.compare_eq_iff.
  - now right.
Qed.

Lemma lt_leb (s1 s2 : string) :
  String.compare s1 s2 = Lt -> String.leb s1 s2 = true.
Proof. unfold String.leb. now intros ->. Qed.

Lemma leb_trans (s1 s2 s3 : string) :
  String.leb s1 s2 = true -> String.leb s2 s3 = true -> String.leb s1 s3 = true.
Proof.
  intros H1 H2.
  destruct (leb_true_cases _ _ H1) as [->|L1]; [assumption|].
  destruct (leb_true_cases _ _ H2) as [<-|L2]; [assumption|].
  apply lt_leb. eapply compare_lt_trans; eassumption.
Qed.

(** Strictly below: the order of a sorted list without repetition. *)
Definition lt (s1 s2 : string) : Prop := String.compare s1 s2 = Lt.

Lemma lt_trans (s1 s2 s3 : string) : lt s1 s2 -> lt s2 s3 -> lt s1 s3.
Proof. apply compare_lt_trans. Qed.

Lemma lt_irrefl (s : string) : ~ lt s s.
Proof. unfold lt. rewrite compare_refl. discriminate. Qed.

End StrOrder.

(** ** Normalised suffixes *)

Module StrFacts.

Lemma mem_In (x : string) (l : list string) : Str.mem x l = true <-> In x l.
Proof.
  unfold Str.mem. rewrite existsb_exists. split.
  - intros (y & Hy & E). apply String.eqb_eq in E. now subst.
  - intros H. exists x. split; [assumption | apply String.eqb_refl].
Qed.

Lemma mem_false (x : string) (l : list string) :
  Str.mem x l = false <-> ~ In x l.
Proof.
  rewrite <- mem_In. destruct (Str.mem x l); split; congruence.
Qed.

Lemma append_assoc (a b c : string) : ((a ++ b) ++ c = a ++ (b ++ c))%string.
Proof. induction a as [|x a IH]; simpl; [reflexivity | now rewrite IH]. Qed.

Lemma lower_char_not_upper (c : ascii) : Str.is_upper (Str.lower_char c) = false.
Proof.
  unfold Str.lower_char. destruct (Str.is_upper c) eqn:U; [|assumption].
  unfold Str.is_upper in *. cbv zeta in *.
  apply andb_prop in U. destruct U as [U1 U2].
  apply Nat.leb_le in U1. apply Nat.leb_le in U2.
  rewrite nat_ascii_embedding by lia.
  apply andb_false_iff. right. apply Nat.leb_gt. lia.
Qed.

Lemma lower_char_dot (c : ascii) :
  Ascii.eqb (Str.lower_char c) "." = Ascii.eqb c ".".
Proof.
  unfold Str.lower_char. destruct (Str.is_upper c) eqn:U; [|reflexivity].
  unfold Str.is_upper in U. cbv zeta in U.
  apply andb_prop in U. destruct U as [U1 U2].
  apply Nat.leb_le in U1. apply Nat.leb_le in U2.
  transitivity false.
  - apply Ascii.eqb_neq. intros E.
    apply (f_equal nat_of_ascii) in E.
    rewrite nat_ascii_embedding in E by lia.
    change (nat_of_ascii ".") with 46 in E. lia.
  - symmetry. apply Ascii.eqb_neq. intros ->.
    change (nat_of_ascii ".") with 46 in U1. lia.
Qed.

Lemma lower_no_upper (s : string) : Str.no_upper (Str.lower s) = true.
Proof.
  induction s as [|c s IH]; simpl; [reflexivity|].
  now rewrite lower_char_not_upper, IH.
Qed.

Lemma lstrip_dot_no_dot (s : string) :
  Str.starts_with_dot (Str.lstrip_dot s) = false.
Proof.
  induction s as [|c s IH]; simpl; [reflexivity|].
  destruct (Ascii.eqb c ".") eqn:E; [assumption|].
  simpl. exact E.
Qed.

Lemma lower_starts_with_dot (s : string) :
  Str.starts_with_dot (Str.lower s) = Str.starts_with_dot s.
Proof. destruct s as [|c s]; simpl; [reflexivity | apply lower_char_dot]. Qed.

Lemma normalize_no_upper (s : string) : Str.no_upper (normalize s) = true.
Proof. apply lower_no_upper. Qed.

Lemma normalize_no_dot (s : string) : Str.starts_with_dot (normalize s) = false.
Proof.
  unfold normalize. rewrite lower_starts_with_dot. apply lstrip_dot_no_dot.
Qed.

End StrFacts.

(** ** Dictionaries *)

Module DictFacts.
Section DictFacts.
Variable V : Type.
Implicit Types (d : Dict.t V) (k : string) (v : V).

Lemma get_set_same k v d : Dict.get k (Dict.set k v d) = Some v.
Proof.
  induction d as [|[k' v'] d IH]; simpl.
  - now rewrite String.eqb_refl.
  - destruct (String.eqb k k') eqn:E; simpl.
    + now rewrite String.eqb_refl.
    + now rewrite E.
Qed.

Lemma get_set_other k k' v d :
  k' <> k -> Dict.get k' (Dict.set k v d) = Dict.get k' d.
Proof.
  intros N. induction d as [|[k0 v0] d IH]; simpl.
  - apply String.eqb_neq in N. now rewrite N.
  - destruct (String.eqb k k0) eqn:E; simpl.
    + apply String.eqb_eq in E. subst k0.
      apply String.eqb_neq in N. now rewrite N.
    + now rewrite IH.
Qed.

Lemma get_set k k' v d :
  Dict.get k' (Dict.set k v d)
  = if String.eqb k k' then Some v else Dict.get k' d.
Proof.
  destruct (String.eqb k k') eqn:E.
  - apply String.eqb_eq in E. subst. apply get_set_same.
  - apply String.eqb_neq in E. apply get_set_other. congruence.
Qed.

Lemma mem_keys k d : Dict.mem k d = true <-> In k (Dict.keys d).
Proof.
  unfold Dict.mem, Dict.keys. rewrite existsb_exists, in_map_iff. split.
  - intros (kv & Hin & E). apply String.eqb_eq in E. exists kv. now split.
  - intros (kv & E & Hin). exists kv. split; [assumption|].
    apply String.eqb_eq. now symmetry.
Qed.

Lemma mem_get k d :
  Dict.mem k d = match Dict.get k d with Some _ => true | None => false end.
Proof.
  induction d as [|[k' v'] d IH]; simpl; [reflexivity|].
  destruct (String.eqb k k'); simpl; [reflexivity | exact IH].
Qed.

Lemma get_In k v d : Dict.get k d = Some v -> In (k, v) d.
Proof.
  induction d as [|[k' v'] d IH]; simpl; [discriminate|].
  destruct (String.eqb k k') eqn:E.
  - apply String.eqb_eq in E. intros [= ->]. left. now subst.
  - intros H. right. now apply IH.
Qed.

Lemma keys_set k v d :
  Dict.keys (Dict.set k v d)
  = if Dict.mem k d then Dict.keys d else Dict.keys d ++ [k].
Proof.
  unfold Dict.mem.
  induction d as [|[k' v'] d IH]; simpl; [reflexivity|].
  destruct (String.eqb k k') eqn:E; simpl.
  - apply String.eqb_eq in E. now subst.
  - rewrite IH. now destruct (existsb _ d).
Qed.

Lemma In_keys_set k k' v d :
  In k' (Dict.keys (Dict.set k v d)) <-> k' = k \/ In k' (Dict.keys d).
Proof.
  rewrite keys_set. destruct (Dict.mem k d) eqn:M.
  - apply mem_keys in M. split; [now right|].
    intros [->|H]; assumption.
  - rewrite in_app_iff. simpl. intuition congruence.
Qed.

Lemma NoDup_keys_set k v d :
  NoDup (Dict.keys d) -> NoDup (Dict.keys (Dict.set k v d)).
Proof.
  intros N. rewrite keys_set. destruct (Dict.mem k d) eqn:M; [assumption|].
  apply NoDup_app; [assumption | repeat constructor; simpl; tauto |].
  intros x Hx [<-|[]]. apply mem_keys in Hx. congruence.
Qed.

(** A key of a dictionary stands in it once. *)
Lemma NoDup_count k (l : list string) :
  NoDup l -> In k l -> count_occ string_dec l k = 1.
Proof.
  intros N H. apply (proj1 (NoDup_count_occ' string_dec l) N k H).
Qed.
End DictFacts.
End DictFacts.

(** ** Sets and their traversal *)

Module SetFacts.

Lemma iter_In (o : SetOrder) (l : list string) (x : string) :
  In x (iter o l) <-> In x l.
Proof.
  split; apply Permutation_in;
    [apply Permutation_sym|]; apply iter_perm.
Qed.

Lemma iter_NoDup (o : SetOrder) (l : list string) :
  NoDup l -> NoDup (iter o l).
Proof. apply Permutation_NoDup, iter_perm. Qed.

Lemma iter_singleton (o : SetOrder) (x : string) : iter o [x] = [x].
Proof. apply Permutation_length_1_inv, iter_perm. Qed.

Lemma add_In (x y : string) (s : PySet.t) :
  In y (PySet.add x s) <-> y = x \/ In y s.
Proof.
  unfold PySet.add. destruct (Str.mem x s) eqn:M.
  - apply StrFacts.mem_In in M. split; [now right|]. now intros [->|H].
  - rewrite in_app_iff. simpl. intuition congruence.
Qed.

Lemma add_NoDup (x : string) (s : PySet.t) : NoDup s -> NoDup (PySet.add x s).
Proof.
  intros N. unfold PySet.add. destruct (Str.mem x s) eqn:M; [assumption|].
  apply StrFacts.mem_false in M.
  apply NoDup_app; [assumption | repeat constructor; simpl; tauto |].
  intros a Ha [<-|[]]. contradiction.
Qed.

Lemma fold_add_In (l : list string) (s : PySet.t) (y : string) :
  In y (fold_left (fun s x => PySet.add x s) l s) <-> In y l \/ In y s.
Proof.
  revert s. induction l as [|x l IH]; intros s; simpl; [tauto|].
  rewrite IH, add_In. intuition congruence.
Qed.

Lemma fold_add_NoDup (l : list string) (s : PySet.t) :
  NoDup s -> NoDup (fold_left (fun s x => PySet.add x s) l s).
Proof.
  revert s. induction l as [|x l IH]; intros s N; simpl; [assumption|].
  apply IH, add_NoDup, N.
Qed.

Lemma of_list_In (l : list string) (y : string) :
  In y (PySet.of_list l) <-> In y l.
Proof. unfold PySet.of_list. rewrite fold_add_In. simpl. tauto. Qed.

Lemma of_list_NoDup (l : list string) : NoDup (PySet.of_list l).
Proof. apply fold_add_NoDup. constructor. Qed.

Lemma update_In (o : SetOrder) (s other : PySet.t) (y : string) :
  In y (PySet.update o s other) <-> In y other \/ In y s.
Proof. unfold PySet.update. now rewrite fold_add_In, iter_In. Qed.

Lemma update_NoDup (o : SetOrder) (s other : PySet.t) :
  NoDup s -> NoDup (PySet.update o s other).
Proof. apply fold_add_NoDup. Qed.

End SetFacts.

(** ** [sorted] *)

Module SortFacts.

Definition le (a b : string) : Prop := String.leb a b = true.

Lemma insert_perm (x : string) (l : list string) :
  Permutation (insert x l) (x :: l).
Proof.
  induction l as [|y l IH]; simpl; [reflexivity|].
  destruct (String.leb x y); [reflexivity|].
  rewrite IH. apply perm_swap.
Qed.

Lemma sorted_perm (l : list string) : Permutation (sorted l) l.
Proof.
  induction l as [|x l IH]; simpl; [reflexivity|].
  rewrite insert_perm. now constructor.
Qed.

(** The order of two insertions does not show in the result. *)
Lemma insert_insert (x y : string) (l : list string) :
  insert x (insert y l) = insert y (insert x l).
Proof.
  induction l as [|a l IH]; simpl.
  - destruct (String.leb x y) eqn:Hxy, (String.leb y x) eqn:Hyx;
      try reflexivity.
    + now rewrite (String.leb_antisym _ _ Hxy Hyx).
    + destruct (String.leb_total x y); congruence.
  - destruct (String.leb y a) eqn:Hya, (String.leb x a) eqn:Hxa; simpl.
    + destruct (String.leb x y) eqn:Hxy, (String.leb y x) eqn:Hyx;
        rewrite ?Hxa, ?Hya; try reflexivity.
      * now rewrite (String.leb_antisym _ _ Hxy Hyx).
      * destruct (String.leb_total x y); congruence.
    + rewrite Hya.
      destruct (String.leb x y) eqn:Hxy.
      * rewrite (StrOrder.leb_trans _ _ _ Hxy Hya) in Hxa. discriminate.
      * now rewrite Hxa.
    + rewrite Hxa.
      destruct (String.leb y x) eqn:Hyx.
      * rewrite (StrOrder.leb_trans _ _ _ Hyx Hxa) in Hya. discriminate.
      * now rewrite Hya.
    + rewrite Hxa, Hya. now rewrite IH.
Qed.

(** [sorted] reads its argument as a multiset: the order in which the
    members come does not matter. *)
Lemma sorted_invariant (l1 l2 : list string) :
  Permutation l1 l2 -> sorted l1 = sorted l2.
Proof.
  induction 1 as [|x l1 l2 _ IH|x y l|l1 l2 l3 _ IH1 _ IH2]; simpl.
  - reflexivity.
  - now rewrite IH.
  - apply insert_insert.
  - congruence.
Qed.

Lemma insert_Forall (P : string -> Prop) (x : string) (l : list string) :
  P x -> Forall P l -> Forall P (insert x l).
Proof.
  intros Hx Hl. eapply Permutation_Forall.
  - apply Permutation_sym, insert_perm.
  - now constructor.
Qed.

Lemma insert_sorted (x : string) (l : list string) :
  StronglySorted le l -> StronglySorted le (insert x l).
Proof.
  induction 1 as [|y l S IH F]; simpl.
  - repeat constructor.
  - destruct (String.leb x y) eqn:Hxy.
    + constructor; [now constructor|].
      constructor; [exact Hxy|].
      eapply Forall_impl; [|exact F].
      intros a Ha. exact (StrOrder.leb_trans _ _ _ Hxy Ha).
    + constructor; [assumption|].
      apply insert_Forall; [|assumption].
      apply StrOrder.lt_leb, StrOrder.leb_false_lt, Hxy.
Qed.

Lemma sorted_sorted (l : list string) : StronglySorted le (sorted l).
Proof.
  induction l as [|x l IH]; simpl; [constructor | now apply insert_sorted].
Qed.

Lemma le_neq_lt (a b : string) : le a b -> a <> b -> StrOrder.lt a b.
Proof.
  intros H N. destruct (StrOrder.leb_true_cases _ _ H); [contradiction|assumption].
Qed.

Lemma sorted_NoDup_strict (l : list string) :
  StronglySorted le l -> NoDup l -> StronglySorted StrOrder.lt l.
Proof.
  induction 1 as [|x l S IH F]; intros N; [constructor|].
  apply NoDup_cons_iff in N. destruct N as [Nx N].
  constructor; [now apply IH|].
  rewrite Forall_forall in *. intros a Ha.
  apply le_neq_lt; [now apply F|]. intros ->. contradiction.
Qed.

(** On a set, [sorted] gives the strictly increasing list of the members. *)
Lemma sorted_strict (l : list string) :
  NoDup l -> StronglySorted StrOrder.lt (sorted l).
Proof.
  intros N. apply sorted_NoDup_strict; [apply sorted_sorted|].
  eapply Permutation_NoDup; [|exact N].
  apply Permutation_sym, sorted_perm.
Qed.

End SortFacts.

(** ** Loops that assign into a dictionary *)

(** Each loop of [_collect_suffix_info] runs a body that, for one item,
    assigns to some keys and leaves the others alone.  What such a loop
    leaves under a key is what the last item assigning to it wrote. *)
Module Overwrite.
Section Overwrite.
Variables (V A : Type).
Variable body : Dict.t V -> A -> Dict.t V.
Variable writes : A -> string -> option V.
Hypothesis body_get : forall tbl a k,
  Dict.get k (body tbl a)
  = match writes a k with Some e => Some e | None => Dict.get k tbl end.

Fixpoint last_write (l : list A) (k : string) : option V :=
  match l with
  | [] => None
  | a :: r =>
      match last_write r k with
      | Some e => Some e
      | None => writes a k
      end
  end.

Lemma fold_get (l : list A) (tbl : Dict.t V) (k : string) :
  Dict.get k (fold_left body l tbl)
  = match last_write l k with Some e => Some e | None => Dict.get k tbl end.
Proof.
  revert tbl. induction l as [|a l IH]; intros tbl; simpl; [reflexivity|].
  rewrite IH, body_get. now destruct (last_write l k).
Qed.

Lemma fold_get_empty (l : list A) (k : string) :
  Dict.get k (fold_left body l []) = last_write l k.
Proof. rewrite fold_get. now destruct (last_write l k). Qed.

Lemma last_write_app (l1 l2 : list A) (k : string) :
  last_write (l1 ++ l2) k
  = match last_write l2 k with Some e => Some e | None => last_write l1 k end.
Proof.
  induction l1 as [|a l1 IH]; simpl.
  - now destruct (last_write l2 k).
  - rewrite IH. now destruct (last_write l2 k).
Qed.

Lemma last_write_none (l : list A) (k : string) :
  Forall (fun a => writes a k = None) l -> last_write l k = None.
Proof.
  induction 1 as [|a l Ha _ IH]; simpl; [reflexivity|]. now rewrite IH.
Qed.

Lemma last_write_some (l : list A) (k : string) (e : V) :
  last_write l k = Some e -> exists a, In a l /\ writes a k = Some e.
Proof.
  induction l as [|a l IH]; simpl; [discriminate|].
  destruct (last_write l k) as [e'|] eqn:L.
  - intros [= ->]. destruct (IH eq_refl) as (a' & Hin & Hw). eauto.
  - intros Hw. eauto.
Qed.
End Overwrite.
End Overwrite.

(** ** The suffix table *)

Module Collect.

(** What the custom loop writes for one item. *)
Definition custom_writes (coll : list string) (m : string)
    (item : string * option Handler) (k : string) : option SuffixEntry :=
  match snd item with
  | Some h =>
      if String.eqb (normalize (fst item)) k
      then Some (entry_of coll m h k) else None
  | None => None
  end.

(** What the base loop writes for one suffix. *)
Definition base_writes (coll : list string) (m : string) (b : Handler)
    (custom : Dict.t (option Handler)) (suffix : string) (k : string)
    : option SuffixEntry :=
  if negb (Dict.mem (normalize suffix) custom)
     && String.eqb (normalize suffix) k
  then Some (entry_of coll m b k) else None.

(** The entry a record leaves under [k] when it is processed on its own:
    [None] when the record does not register [k]. *)
Definition written (o : SetOrder) (coll : list string)
    (item : string * ModalityRecord) (k : string) : option SuffixEntry :=
  Dict.get k (collect_modality o coll [] item).

Lemma custom_body_get coll m (tbl : Dict.t SuffixEntry) item k :
  Dict.get k
    (match snd item with
     | Some h =>
         let suffix_lower := normalize (fst item) in
         Dict.set suffix_lower (entry_of coll m h suffix_lower) tbl
     | None => tbl
     end)
  = match custom_writes coll m item k with
    | Some e => Some e
    | None => Dict.get k tbl
    end.
Proof.
  unfold custom_writes. destruct (snd item) as [h|]; [|reflexivity].
  cbv zeta. rewrite DictFacts.get_set.
  destruct (String.eqb (normalize (fst item)) k) eqn:E; [|reflexivity].
  apply String.eqb_eq in E. now subst k.
Qed.

Lemma base_body_get coll m b custom (tbl : Dict.t SuffixEntry) suffix k :
  Dict.get k
    (let suffix_lower := normalize suffix in
     if negb (Dict.mem suffix_lower custom)
     then Dict.set suffix_lower (entry_of coll m b suffix_lower) tbl
     else tbl)
  = match base_writes coll m b custom suffix k with
    | Some e => Some e
    | None => Dict.get k tbl
    end.
Proof.
  unfold base_writes. cbv zeta.
  destruct (negb (Dict.mem (normalize suffix) custom)); simpl; [|reflexivity].
  rewrite DictFacts.get_set.
  destruct (String.eqb (normalize suffix) k) eqn:E; [|reflexivity].
  apply String.eqb_eq in E. now subst k.
Qed.

Lemma get_collect_custom coll m custom tbl k :
  Dict.get k (collect_custom coll m custom tbl)
  = match Overwrite.last_write (custom_writes coll m) custom k with
    | Some e => Some e
    | None => Dict.get k tbl
    end.
Proof.
  unfold collect_custom.
  apply (Overwrite.fold_get _ (custom_writes coll m)).
  intros; apply custom_body_get.
Qed.

Lemma get_collect_base coll m b custom suffixes tbl k :
  Dict.get k (collect_base coll m b custom suffixes tbl)
  = match Overwrite.last_write (base_writes coll m b custom) suffixes k with
    | Some e => Some e
    | None => Dict.get k tbl
    end.
Proof.
  unfold collect_base.
  apply (Overwrite.fold_get _ (base_writes coll m b custom)).
  intros; apply base_body_get.
Qed.

(** Processing a record overwrites what the record registers and leaves
    every other suffix as it was. *)
Lemma get_collect_modality o coll tbl item k :
  Dict.get k (collect_modality o coll tbl item)
  = match written o coll item k with
    | Some e => Some e
    | None => Dict.get k tbl
    end.
Proof.
  unfold written, collect_modality. cbv zeta.
  rewrite !get_collect_custom.
  destruct (Overwrite.last_write _ (Custom (snd item)) k); [reflexivity|].
  destruct (BaseIO (snd item)) as [b|]; [|reflexivity].
  rewrite !get_collect_base.
  now destruct (Overwrite.last_write _ _ k).
Qed.

(** The final table holds, under each suffix, what the last record that
    registers it wrote. *)
Lemma get_collect o reg k :
  Dict.get k (_collect_suffix_info o reg)
  = Overwrite.last_write (written o (collision_suffix reg)) (items reg) k.
Proof.
  unfold _collect_suffix_info. cbv zeta.
  apply (Overwrite.fold_get_empty _ (written o (collision_suffix reg))).
  intros; apply get_collect_modality.
Qed.

(** *** What one record registers *)

Lemma written_unfold o coll item k :
  written o coll item k
  = match Overwrite.last_write (custom_writes coll (fst item))
            (Custom (snd item)) k with
    | Some e => Some e
    | None =>
        match BaseIO (snd item) with
        | Some b =>
            Overwrite.last_write
              (base_writes coll (fst item) b (Custom (snd item)))
              (iter o (PySet.of_list (base_suffixes (snd item)))) k
        | None => None
        end
    end.
Proof.
  unfold written, collect_modality. cbv zeta.
  rewrite get_collect_custom.
  destruct (Overwrite.last_write _ (Custom (snd item)) k); [reflexivity|].
  destruct (BaseIO (snd item)) as [b|]; [|reflexivity].
  rewrite get_collect_base.
  now destruct (Overwrite.last_write _ _ k).
Qed.

Lemma custom_last_inv coll m custom k e :
  Overwrite.last_write (custom_writes coll m) custom k = Some e ->
  exists s h, In (s, Some h) custom /\ normalize s = k
              /\ e = entry_of coll m h k.
Proof.
  intros H. apply Overwrite.last_write_some in H.
  destruct H as ([s oh] & Hin & Hw). unfold custom_writes in Hw. simpl in Hw.
  destruct oh as [h|]; [|discriminate].
  destruct (String.eqb (normalize s) k) eqn:E; [|discriminate].
  apply String.eqb_eq in E. injection Hw as <-. eauto.
Qed.

Lemma custom_last_some coll m custom s h :
  In (s, Some h) custom ->
  exists e, Overwrite.last_write (custom_writes coll m) custom (normalize s)
            = Some e.
Proof.
  induction custom as [|item custom IH]; simpl; [contradiction|].
  intros [->|Hin].
  - destruct (Overwrite.last_write _ custom (normalize s)); [eauto|].
    unfold custom_writes. simpl. rewrite String.eqb_refl. eauto.
  - destruct (IH Hin) as (e & ->). eauto.
Qed.

Lemma custom_last_none coll m custom k :
  (forall s h, In (s, Some h) custom -> normalize s <> k) ->
  Overwrite.last_write (custom_writes coll m) custom k = None.
Proof.
  intros H. apply Overwrite.last_write_none. apply Forall_forall.
  intros [s oh] Hin. unfold custom_writes. simpl.
  destruct oh as [h|]; [|reflexivity].
  destruct (String.eqb (normalize s) k) eqn:E; [|reflexivity].
  apply String.eqb_eq in E. now apply H in Hin.
Qed.

Lemma base_last_inv coll m b custom suffixes k e :
  Overwrite.last_write (base_writes coll m b custom) suffixes k = Some e ->
  e = entry_of coll m b k /\ Dict.mem k custom = false
  /\ exists s, In s suffixes /\ normalize s = k.
Proof.
  intros H. apply Overwrite.last_write_some in H.
  destruct H as (s & Hin & Hw). unfold base_writes in Hw.
  destruct (Dict.mem (normalize s) custom) eqn:M; [discriminate|]. simpl in Hw.
  destruct (String.eqb (normalize s) k) eqn:E; [|discriminate].
  apply String.eqb_eq in E. subst k. injection Hw as <-. eauto.
Qed.

Lemma base_last_some coll m b custom suffixes s :
  In s suffixes -> Dict.mem (normalize s) custom = false ->
  Overwrite.last_write (base_writes coll m b custom) suffixes (normalize s)
  = Some (entry_of coll m b (normalize s)).
Proof.
  intros Hin M.
  induction suffixes as [|s' l IH]; simpl; [contradiction|].
  destruct (Overwrite.last_write _ l (normalize s)) as [e|] eqn:L.
  - apply base_last_inv in L. now destruct L as (-> & _).
  - destruct Hin as [->|Hin].
    + unfold base_writes. now rewrite M, String.eqb_refl.
    + specialize (IH Hin). discriminate.
Qed.

Lemma base_last_masked coll m b custom suffixes k :
  Dict.mem k custom = true ->
  Overwrite.last_write (base_writes coll m b custom) suffixes k = None.
Proof.
  intros M.
  destruct (Overwrite.last_write _ suffixes k) as [e|] eqn:L; [|reflexivity].
  apply base_last_inv in L. destruct L as (_ & M' & _). congruence.
Qed.

(** An entry a record writes carries the record's modality, a handler of
    the record and the flag of its key. *)
Lemma written_inv o coll m rec k e :
  written o coll (m, rec) k = Some e ->
  exists h, e = entry_of coll m h k
    /\ ((exists s, In (s, Some h) (Custom rec) /\ normalize s = k)
        \/ (BaseIO rec = Some h /\ Dict.mem k (Custom rec) = false
            /\ exists s, In s (base_suffixes rec) /\ normalize s = k)).
Proof.
  rewrite written_unfold. simpl.
  destruct (Overwrite.last_write _ (Custom rec) k) as [e'|] eqn:L.
  - intros [= <-]. apply custom_last_inv in L.
    destruct L as (s & h & Hin & Hk & ->). exists h. split; [reflexivity|].
    left. eauto.
  - destruct (BaseIO rec) as [b|]; [|discriminate].
    intros H. apply base_last_inv in H.
    destruct H as (-> & M & s & Hin & Hk). exists b. split; [reflexivity|].
    right. repeat split; try assumption.
    exists s. split; [|assumption].
    now apply SetFacts.of_list_In, (SetFacts.iter_In o).
Qed.

(** *** The keys of the table *)

Definition normal (k : string) : Prop :=
  Str.no_upper k = true /\ Str.starts_with_dot k = false.

Definition good (tbl : Dict.t SuffixEntry) : Prop :=
  NoDup (Dict.keys tbl) /\ Forall normal (Dict.keys tbl).

Lemma normal_normalize s : normal (normalize s).
Proof.
  split; [apply StrFacts.normalize_no_upper | apply StrFacts.normalize_no_dot].
Qed.

Lemma good_set tbl s e : good tbl -> good (Dict.set (normalize s) e tbl).
Proof.
  intros [N F]. split; [now apply DictFacts.NoDup_keys_set|].
  rewrite Forall_forall in *. intros k Hk.
  apply DictFacts.In_keys_set in Hk. destruct Hk as [->|Hk].
  - apply normal_normalize.
  - now apply F.
Qed.

Lemma good_collect_base coll m b custom suffixes tbl :
  good tbl -> good (collect_base coll m b custom suffixes tbl).
Proof.
  unfold collect_base. revert tbl.
  induction suffixes as [|s l IH]; intros tbl G; simpl; [assumption|].
  apply IH. destruct (negb _); [now apply good_set | assumption].
Qed.

Lemma good_collect_custom coll m custom tbl :
  good tbl -> good (collect_custom coll m custom tbl).
Proof.
  unfold collect_custom. revert tbl.
  induction custom as [|[s oh] l IH]; intros tbl G; simpl; [assumption|].
  apply IH. destruct oh; [now apply good_set | assumption].
Qed.

Lemma good_collect_modality o coll tbl item :
  good tbl -> good (collect_modality o coll tbl item).
Proof.
  intros G. unfold collect_modality. cbv zeta.
  apply good_collect_custom.
  destruct (BaseIO (snd item)); [now apply good_collect_base | assumption].
Qed.

Lemma good_collect o reg : good (_collect_suffix_info o reg).
Proof.
  unfold _collect_suffix_info. cbv zeta.
  assert (G : good []) by (split; constructor).
  revert G. generalize (@nil (string * SuffixEntry)).
  induction (items reg) as [|item l IH]; intros tbl G; simpl; [assumption|].
  apply IH. now apply good_collect_modality.
Qed.

(** A suffix with an entry stands in the table exactly once. *)
Lemma one_entry o reg k e :
  Dict.get k (_collect_suffix_info o reg) = Some e ->
  count_occ string_dec (Dict.keys (_collect_suffix_info o reg)) k = 1.
Proof.
  intros H. apply DictFacts.NoDup_count.
  - apply good_collect.
  - apply DictFacts.mem_keys. rewrite DictFacts.mem_get. now rewrite H.
Qed.

End Collect.

(** * Sample registries *)

Module Sample.

Definition BaseImage : Handler :=
  {| cls_name := "BaseImage"; cls_return_type := None |}.
Definition BaseText : Handler :=
  {| cls_name := "BaseText"; cls_return_type := None |}.
Definition JsonText : Handler :=
  {| cls_name := "JsonText"; cls_return_type := None |}.
Definition BaseVideo : Handler :=
  {| cls_name := "BaseVideo"; cls_return_type := None |}.
Definition Waveform : Handler :=
  {| cls_name := "Waveform"; cls_return_type := Some "numpy.ndarray" |}.
Definition Blob : Handler :=
  {| cls_name := "Blob"; cls_return_type := None |}.

(** A record with base suffixes only. *)
Definition plain (b : Handler) (suffixes : list string) : ModalityRecord :=
  {| BaseIO := Some b; base_suffixes := suffixes; Custom := [] |}.

(** A record whose only override is a null one under the dotted spelling of
    its base suffix, and the registry made of it. *)
Definition dotted_null_record : ModalityRecord :=
  {| BaseIO := Some BaseImage;
     base_suffixes := [".png"];
     Custom := [(".png", None)] |}.

Definition dotted_null_override : SuffixRegistry :=
  {| items := [("Image", dotted_null_record)]; collision_suffix := [] |}.

(** A record overriding a base suffix with a handler. *)
Definition json_record : ModalityRecord :=
  {| BaseIO := Some BaseText;
     base_suffixes := ["txt"; "json"];
     Custom := [("json", Some JsonText)] |}.

Definition json_override : SuffixRegistry :=
  {| items := [("Text", json_record)]; collision_suffix := [] |}.

(** Three modalities registering the suffix [dat]. *)
Definition shared_dat : SuffixRegistry :=
  {| items :=
       [ ("Image", plain BaseImage ["dat"]);
         ("Text", plain BaseText ["dat"]);
         ("Video", plain BaseVideo ["dat"]) ];
     collision_suffix := ["dat"] |}.

(** A record whose null override masks its base suffix [png]. *)
Definition masked_record : ModalityRecord :=
  {| BaseIO := Some BaseImage;
     base_suffixes := ["png"; "jpg"];
     Custom := [("png", None)] |}.

(** The masking record, followed by a modality that registers [png] too. *)
Definition masked_png : SuffixRegistry :=
  {| items := [("Image", masked_record); ("Video", plain BaseVideo ["png"])];
     collision_suffix := [] |}.

(** The masking record on its own. *)
Definition masked_png_alone : SuffixRegistry :=
  {| items := [("Image", masked_record)]; collision_suffix := [] |}.

End Sample.

(** * The claims about type and suffix resolution *)

(** The three rules of type resolution, in the words of the specification:
    a declared type; else the fallback table; else the generic type. *)
Inductive resolves (h : Handler) : string -> Prop :=
| resolves_declared t :
    cls_return_type h = Some t -> resolves h t
| resolves_fallback t :
    cls_return_type h = None ->
    Dict.get (cls_name h) DEFAULT_RETURN_TYPES = Some t -> resolves h t
| resolves_generic :
    cls_return_type h = None ->
    Dict.get (cls_name h) DEFAULT_RETURN_TYPES = None -> resolves h "Any".

(** C3. [_get_handler_return_type] is a total function that follows the
    three rules in their order: for every handler it returns a type the rules
    derive, and the rules derive no other type for that handler. *)
Theorem type_resolution_total_and_ordered (h : Handler) :
  resolves h (_get_handler_return_type h)
  /\ (forall t, resolves h t -> t = _get_handler_return_type h).
Proof.
  unfold _get_handler_return_type, Dict.get_default. cbv zeta.
  destruct (cls_return_type h) as [d|] eqn:D.
  - split; [now apply resolves_declared|].
    intros t R. destruct R; congruence.
  - destruct (Dict.get (cls_name h) DEFAULT_RETURN_TYPES) as [f|] eqn:F.
    + split; [now apply resolves_fallback|].
      intros t R. destruct R; congruence.
    + split; [now apply resolves_generic|].
      intros t R. destruct R; congruence.
Qed.

(** The final table after a split of the registry at one record that no
    later record overwrites. *)
Lemma get_collect_at o reg pre item post k :
  items reg = pre ++ item :: post ->
  Forall (fun later => Collect.written o (collision_suffix reg) later k = None)
    post ->
  Dict.get k (_collect_suffix_info o reg)
  = match Collect.written o (collision_suffix reg) item k with
    | Some e => Some e
    | None =>
        Overwrite.last_write (Collect.written o (collision_suffix reg)) pre k
    end.
Proof.
  intros E F. rewrite Collect.get_collect, E, Overwrite.last_write_app.
  simpl. now rewrite (Overwrite.last_write_none _ _ F).
Qed.

(** C2, the claim as stated fails: with base suffix [.png] and a null
    override under the same spelling [.png], the suffix stands in both
    collections, and the table records the base handler for it. *)
Lemma null_override_keeps_base_handler :
  Str.mem ".png" (base_suffixes Sample.dotted_null_record) = true
  /\ Dict.mem ".png" (Custom Sample.dotted_null_record) = true
  /\ BaseIO Sample.dotted_null_record = Some Sample.BaseImage
  /\ _collect_suffix_info insertion_order Sample.dotted_null_override
     = [(normalize ".png", entry_of [] "Image" Sample.BaseImage "png")]
  /\ _collect_suffix_info reversed_order Sample.dotted_null_override
     = [(normalize ".png", entry_of [] "Image" Sample.BaseImage "png")]
  /\ handler (entry_of [] "Image" Sample.BaseImage "png") = Sample.BaseImage.
Proof. repeat split. Qed.

(** C2 (amended). When a suffix [s] of a record's base suffixes is also a
    key of the record's custom mapping with a handler that is not null, and
    no later record registers the normalised suffix, the final table's entry
    for it carries the record's modality and the handler of a non-null custom
    override of that record whose key normalises to the same suffix; it is
    the handler under [s] itself when no other such key exists. *)
Theorem custom_override_supersedes_base
    (o : SetOrder) (reg : SuffixRegistry) (pre post : Dict.t ModalityRecord)
    (m : string) (rec : ModalityRecord) (s : string) (h : Handler) :
  items reg = pre ++ (m, rec) :: post ->
  In s (base_suffixes rec) ->
  In (s, Some h) (Custom rec) ->
  Forall (fun later =>
            Collect.written o (collision_suffix reg) later (normalize s) = None)
    post ->
  exists e s' h',
    Dict.get (normalize s) (_collect_suffix_info o reg) = Some e
    /\ In (s', Some h') (Custom rec) /\ normalize s' = normalize s
    /\ handler e = h' /\ modality e = m
    /\ return_type e = _get_handler_return_type h'
    /\ ((forall s2 h2, In (s2, Some h2) (Custom rec) ->
                       normalize s2 = normalize s -> h2 = h) ->
        handler e = h).
Proof.
  intros E _ Hc F.
  rewrite (@get_collect_at _ _ _ _ _ _ E F), Collect.written_unfold. simpl.
  destruct (@Collect.custom_last_some (collision_suffix reg) m _ _ _ Hc)
    as (e & L).
  rewrite L. apply Collect.custom_last_inv in L.
  destruct L as (s' & h' & Hin & Hk & ->).
  exists (entry_of (collision_suffix reg) m h' (normalize s)), s', h'.
  repeat split; try assumption.
  intros U. simpl. now apply (U s' h').
Qed.

Lemma custom_override_supersedes_base_witness :
  exists e s' h',
    Dict.get (normalize "json")
      (_collect_suffix_info insertion_order Sample.json_override) = Some e
    /\ In (s', Some h') (Custom Sample.json_record)
    /\ normalize s' = normalize "json"
    /\ handler e = h' /\ modality e = "Text"
    /\ return_type e = _get_handler_return_type h'
    /\ ((forall s2 h2, In (s2, Some h2) (Custom Sample.json_record) ->
                       normalize s2 = normalize "json" -> h2 = Sample.JsonText) ->
        handler e = Sample.JsonText).
Proof.
  apply (@custom_override_supersedes_base insertion_order Sample.json_override
           [] [] "Text" Sample.json_record "json" Sample.JsonText).
  - reflexivity.
  - simpl. auto.
  - simpl. auto.
  - constructor.
Defined.

(** C4, the claim as stated fails: [Image], [Text] and [Video] all register
    [dat]; of the pair [Image], [Text] the later one is [Text], yet the one
    entry for [dat] is the one [Video] wrote. *)
Lemma pair_overwritten_by_third :
  Collect.written insertion_order ["dat"]
    ("Image", Sample.plain Sample.BaseImage ["dat"]) "dat"
  = Some (entry_of ["dat"] "Image" Sample.BaseImage "dat")
  /\ Collect.written insertion_order ["dat"]
       ("Text", Sample.plain Sample.BaseText ["dat"]) "dat"
     = Some (entry_of ["dat"] "Text" Sample.BaseText "dat")
  /\ _collect_suffix_info insertion_order Sample.shared_dat
     = [("dat", entry_of ["dat"] "Video" Sample.BaseVideo "dat")]
  /\ String.eqb
       (modality (entry_of ["dat"] "Video" Sample.BaseVideo "dat")) "Text"
     = false.
Proof. repeat split. Qed.

(** Some record registering a suffix gives the final table an entry for it. *)
Lemma registered_has_entry o reg item k e :
  In item (items reg) ->
  Collect.written o (collision_suffix reg) item k = Some e ->
  exists e', Dict.get k (_collect_suffix_info o reg) = Some e'.
Proof.
  rewrite Collect.get_collect. intros Hin W.
  induction (items reg) as [|a l IH]; simpl; [contradiction|].
  destruct (Overwrite.last_write _ l k) as [e0|] eqn:L; [eauto|].
  destruct Hin as [->|Hin]; [eauto|].
  destruct (IH Hin) as (e' & E). discriminate.
Qed.

(** C4 (amended). When two distinct modalities register the same normalised
    suffix, the final table has exactly one entry for that suffix; when no
    record processed after the later of the two registers the suffix, that
    entry (handler, modality, return type) is the one the later record
    wrote.  So the last of all the records registering the suffix wins. *)
Theorem last_registering_modality_wins
    (o : SetOrder) (reg : SuffixRegistry)
    (pre mid post : Dict.t ModalityRecord)
    (ma mb : string) (ra rb : ModalityRecord) (k : string)
    (ea eb : SuffixEntry) :
  items reg = pre ++ (ma, ra) :: mid ++ (mb, rb) :: post ->
  ma <> mb ->
  Collect.written o (collision_suffix reg) (ma, ra) k = Some ea ->
  Collect.written o (collision_suffix reg) (mb, rb) k = Some eb ->
  count_occ string_dec (Dict.keys (_collect_suffix_info o reg)) k = 1
  /\ modality ea = ma /\ modality eb = mb
  /\ (Forall (fun later =>
                Collect.written o (collision_suffix reg) later k = None) post ->
      Dict.get k (_collect_suffix_info o reg) = Some eb).
Proof.
  intros E _ Ha Hb. repeat split.
  - destruct (@registered_has_entry o reg (ma, ra) k ea) as (e' & G);
      [rewrite E; apply in_elt | assumption |].
    exact (Collect.one_entry _ _ _ G).
  - apply Collect.written_inv in Ha. destruct Ha as (h & -> & _). reflexivity.
  - apply Collect.written_inv in Hb. destruct Hb as (h & -> & _). reflexivity.
  - intros F.
    rewrite (@get_collect_at o reg (pre ++ (ma, ra) :: mid) (mb, rb) post k).
    + now rewrite Hb.
    + rewrite E, <- app_assoc. reflexivity.
    + exact F.
Qed.

Lemma last_registering_modality_wins_witness :
  count_occ string_dec
    (Dict.keys (_collect_suffix_info insertion_order Sample.shared_dat))
    "dat" = 1
  /\ modality (entry_of ["dat"] "Text" Sample.BaseText "dat") = "Text"
  /\ modality (entry_of ["dat"] "Video" Sample.BaseVideo "dat") = "Video"
  /\ (Forall (fun later =>
                Collect.written insertion_order
                  (collision_suffix Sample.shared_dat) later "dat" = None) [] ->
      Dict.get "dat" (_collect_suffix_info insertion_order Sample.shared_dat)
      = Some (entry_of ["dat"] "Video" Sample.BaseVideo "dat")).
Proof.
  apply (@last_registering_modality_wins insertion_order Sample.shared_dat
           [("Image", Sample.plain Sample.BaseImage ["dat"])] [] []
           "Text" "Video"
           (Sample.plain Sample.BaseText ["dat"])
           (Sample.plain Sample.BaseVideo ["dat"])
           "dat"
           (entry_of ["dat"] "Text" Sample.BaseText "dat")
           (entry_of ["dat"] "Video" Sample.BaseVideo "dat")).
  - reflexivity.
  - discriminate.
  - reflexivity.
  - reflexivity.
Defined.

(** C10, the claim as stated fails: [Image] has a base handler, the base
    suffix [png] and a null override under [png]; [Video] registers [png] as
    well, and the final table does hold an entry for [png]. *)
Lemma masked_suffix_registered_elsewhere :
  BaseIO Sample.masked_record = Some Sample.BaseImage
  /\ Str.mem "png" (base_suffixes Sample.masked_record) = true
  /\ Dict.get (normalize "png") (Custom Sample.masked_record) = Some None
  /\ Dict.get (normalize "png")
       (_collect_suffix_info insertion_order Sample.masked_png)
     = Some (entry_of [] "Video" Sample.BaseVideo "png")
  /\ Dict.get (normalize "png")
       (_collect_suffix_info reversed_order Sample.masked_png)
     = Some (entry_of [] "Video" Sample.BaseVideo "png").
Proof. repeat split. Qed.

(** C10 (amended). Let a record have a base handler, a base suffix [s] and
    the key [normalize s] of its custom mapping mapped to null, and let no
    non-null override of the record normalise to the same suffix.  Then
    processing the record writes nothing under [normalize s]: whatever the
    table held there before stays.  The final table has no entry for
    [normalize s] when no other record of the registry registers it. *)
Theorem null_override_masks_base_suffix
    (o : SetOrder) (reg : SuffixRegistry) (pre post : Dict.t ModalityRecord)
    (m : string) (rec : ModalityRecord) (b : Handler) (s : string) :
  items reg = pre ++ (m, rec) :: post ->
  BaseIO rec = Some b ->
  In s (base_suffixes rec) ->
  In (normalize s, None) (Custom rec) ->
  (forall s' h', In (s', Some h') (Custom rec) -> normalize s' <> normalize s) ->
  (forall tbl,
     Dict.get (normalize s)
       (collect_modality o (collision_suffix reg) tbl (m, rec))
     = Dict.get (normalize s) tbl)
  /\ (Forall (fun other =>
                Collect.written o (collision_suffix reg) other (normalize s)
                = None) (pre ++ post) ->
      Dict.get (normalize s) (_collect_suffix_info o reg) = None).
Proof.
  intros E Hb _ Hnull Hnone.
  assert (W : Collect.written o (collision_suffix reg) (m, rec) (normalize s)
              = None).
  { rewrite Collect.written_unfold. simpl.
    rewrite (Collect.custom_last_none _ _ _ Hnone), Hb.
    apply Collect.base_last_masked.
    apply DictFacts.mem_keys. unfold Dict.keys.
    change (normalize s) with (fst (normalize s, @None Handler)).
    now apply in_map. }
  split.
  - intros tbl. now rewrite Collect.get_collect_modality, W.
  - intros F. apply Forall_app in F. destruct F as [Fpre Fpost].
    rewrite (@get_collect_at _ _ _ _ _ _ E Fpost), W.
    now apply Overwrite.last_write_none.
Qed.

Lemma null_override_masks_base_suffix_witness :
  (forall tbl,
     Dict.get (normalize "png")
       (collect_modality insertion_order
          (collision_suffix Sample.masked_png_alone) tbl
          ("Image", Sample.masked_record))
     = Dict.get (normalize "png") tbl)
  /\ (Forall (fun other =>
                Collect.written insertion_order
                  (collision_suffix Sample.masked_png_alone) other
                  (normalize "png") = None) ([] ++ []) ->
      Dict.get (normalize "png")
        (_collect_suffix_info insertion_order Sample.masked_png_alone) = None).
Proof.
  apply (@null_override_masks_base_suffix insertion_order
           Sample.masked_png_alone [] [] "Image" Sample.masked_record
           Sample.BaseImage "png").
  - reflexivity.
  - reflexivity.
  - simpl. auto.
  - simpl. auto.
  - intros s' h' [H|[]]. discriminate.
Defined.

(** Every entry's flag is the membership of its key in the collision set. *)
Lemma entry_flag o reg k e :
  Dict.get k (_collect_suffix_info o reg) = Some e ->
  is_collision e = Str.mem k (collision_suffix reg).
Proof.
  rewrite Collect.get_collect. intros H.
  apply Overwrite.last_write_some in H. destruct H as ([m rec] & _ & W).
  apply Collect.written_inv in W. now destruct W as (h & -> & _).
Qed.












(** ** The collision flag *)

Module Flag.

(** An entry with its flag cleared, and a table with every flag cleared. *)
Definition erase (e : SuffixEntry) : SuffixEntry :=
  {| handler := handler e;
     return_type := return_type e;
     modality := modality e;
     is_collision := false |}.

Definition erase_all (d : Dict.t SuffixEntry) : Dict.t SuffixEntry :=
  map (fun kv => (fst kv, erase (snd kv))) d.

(** What an entry resolves to: all of it but the flag. *)
Definition resolution (e : SuffixEntry) : Handler * string * string :=
  (handler e, return_type e, modality e).

Lemma erase_all_set k e d :
  erase_all (Dict.set k e d) = Dict.set k (erase e) (erase_all d).
Proof.
  induction d as [|[k' e'] d IH]; simpl; [reflexivity|].
  destruct (String.eqb k k'); simpl; [reflexivity | now rewrite IH].
Qed.

Lemma erase_entry_of coll m h k : erase (entry_of coll m h k) = entry_of [] m h k.
Proof. reflexivity. Qed.

Lemma erase_collect_base coll m b custom suffixes tbl :
  erase_all (collect_base coll m b custom suffixes tbl)
  = collect_base [] m b custom suffixes (erase_all tbl).
Proof.
  unfold collect_base. revert tbl.
  induction suffixes as [|s l IH]; intros tbl; simpl; [reflexivity|].
  rewrite IH. destruct (negb _); [|reflexivity].
  now rewrite erase_all_set, erase_entry_of.
Qed.

Lemma erase_collect_custom coll m custom tbl :
  erase_all (collect_custom coll m custom tbl)
  = collect_custom [] m custom (erase_all tbl).
Proof.
  unfold collect_custom. revert tbl.
  induction custom as [|[s oh] l IH]; intros tbl; simpl; [reflexivity|].
  rewrite IH. destruct oh; [|reflexivity].
  now rewrite erase_all_set, erase_entry_of.
Qed.

Lemma erase_collect_modality o coll tbl item :
  erase_all (collect_modality o coll tbl item)
  = collect_modality o [] (erase_all tbl) item.
Proof.
  unfold collect_modality. cbv zeta. rewrite erase_collect_custom.
  destruct (BaseIO (snd item)); [|reflexivity].
  now rewrite erase_collect_base.
Qed.

(** Clearing the flags of the table is running the collection with an empty
    collision set. *)
Lemma erase_collect o its coll :
  erase_all (_collect_suffix_info o {| items := its; collision_suffix := coll |})
  = _collect_suffix_info o {| items := its; collision_suffix := [] |}.
Proof.
  unfold _collect_suffix_info. simpl.
  change (@nil (string * SuffixEntry)) with (erase_all []) at 2.
  generalize (@nil (string * SuffixEntry)).
  induction its as [|item l IH]; intros tbl; simpl; [reflexivity|].
  now rewrite IH, erase_collect_modality.
Qed.

(** Grouping does not read the flag. *)
Lemma group_erase_all d : _group_by_modality (erase_all d) = _group_by_modality d.
Proof.
  unfold _group_by_modality. generalize (@nil (string * PySet.t)).
  induction d as [|[k e] d IH]; intros acc; simpl; [reflexivity|].
  now rewrite IH.
Qed.

Lemma resolution_erase_all d :
  map (fun kv => (fst kv, resolution (snd kv))) (erase_all d)
  = map (fun kv => (fst kv, resolution (snd kv))) d.
Proof. unfold erase_all. rewrite map_map. reflexivity. Qed.

End Flag.

(** C6. Two runs over the same registry items that differ only in the
    collision set give tables with the same suffixes in the same order, each
    resolved to the same handler, return type and modality, and give the same
    grouped type sets; each run's flags are the memberships of the keys in
    that run's collision set. *)
Theorem collision_set_only_sets_flag
    (o : SetOrder) (its : Dict.t ModalityRecord) (c1 c2 : list string) :
  let t1 := _collect_suffix_info o {| items := its; collision_suffix := c1 |} in
  let t2 := _collect_suffix_info o {| items := its; collision_suffix := c2 |} in
  map (fun kv => (fst kv, Flag.resolution (snd kv))) t1
  = map (fun kv => (fst kv, Flag.resolution (snd kv))) t2
  /\ _group_by_modality t1 = _group_by_modality t2
  /\ (forall k e, Dict.get k t1 = Some e -> is_collision e = Str.mem k c1)
  /\ (forall k e, Dict.get k t2 = Some e -> is_collision e = Str.mem k c2).
Proof.
  intros t1 t2.
  assert (E : Flag.erase_all t1 = Flag.erase_all t2).
  { unfold t1, t2. now rewrite !Flag.erase_collect. }
  repeat split.
  - rewrite <- (Flag.resolution_erase_all t1), <- (Flag.resolution_erase_all t2).
    now rewrite E.
  - rewrite <- (Flag.group_erase_all t1), <- (Flag.group_erase_all t2).
    now rewrite E.
  - intros k e H. exact (entry_flag _ _ _ H).
  - intros k e H. exact (entry_flag _ _ _ H).
Qed.

(** * Emission *)

Module Emit.

(** ** The groups are sets *)

Lemma In_set_inv (V : Type) (k k' : string) (v v' : V) (d : Dict.t V) :
  In (k', v') (Dict.set k v d) -> (k' = k /\ v' = v) \/ In (k', v') d.
Proof.
  induction d as [|[k0 v0] d IH]; simpl.
  - intros [[= <- <-]|[]]. now left.
  - destruct (String.eqb k k0); simpl.
    + intros [[= <- <-]|H]; [now left | now right; right].
    + intros [H|H]; [now right; left|].
      destruct (IH H) as [?|?]; [now left | now right; right].
Qed.

Definition all_sets (g : Dict.t PySet.t) : Prop :=
  forall m rts, In (m, rts) g -> NoDup rts.

Lemma get_default_set (g : Dict.t PySet.t) (m : string) :
  all_sets g -> NoDup (Dict.get_default m g PySet.empty).
Proof.
  intros A. unfold Dict.get_default.
  destruct (Dict.get m g) as [rts|] eqn:G; [|constructor].
  apply DictFacts.get_In in G. exact (A _ _ G).
Qed.

Lemma all_sets_set (g : Dict.t PySet.t) (m : string) (rts : PySet.t) :
  all_sets g -> NoDup rts -> all_sets (Dict.set m rts g).
Proof.
  intros A N m' rts' H. apply In_set_inv in H.
  destruct H as [[_ ->]|H]; [assumption | exact (A _ _ H)].
Qed.

Lemma groups_are_sets (suffix_info : Dict.t SuffixEntry) :
  all_sets (_group_by_modality suffix_info).
Proof.
  unfold _group_by_modality.
  assert (A : all_sets []) by (intros m rts []).
  revert A. generalize (@nil (string * PySet.t)).
  induction suffix_info as [|[k e] d IH]; intros acc A; simpl; [assumption|].
  apply IH.
  assert (A' : all_sets
                 (if negb (Dict.mem (modality e) acc)
                  then Dict.set (modality e) PySet.empty acc else acc)).
  { destruct (negb _); [|assumption].
    apply all_sets_set; [assumption | constructor]. }
  apply all_sets_set; [assumption|].
  apply SetFacts.add_NoDup, get_default_set, A'.
Qed.

(** ** The imports *)

Lemma all_return_types_In o (g : Dict.t PySet.t) (t : string) :
  In t (all_return_types_of o g)
  <-> exists m rts, In (m, rts) g /\ In t rts.
Proof.
  unfold all_return_types_of.
  assert (H : forall acc,
    In t (fold_left (fun acc (item : string * PySet.t) =>
                       PySet.update o acc (snd item)) g acc)
    <-> (exists m rts, In (m, rts) g /\ In t rts) \/ In t acc).
  { induction g as [|[m rts] g IH]; intros acc; simpl.
    - split; [now right|]. intros [(m & rts & [] & _)|H]; assumption.
    - rewrite IH, SetFacts.update_In. split.
      + intros [(m' & rts' & Hin & Ht)|[Ht|Ht]].
        * left. exists m', rts'. split; [now right | assumption].
        * left. exists m, rts. split; [now left | assumption].
        * now right.
      + intros [(m' & rts' & [[= <- <-]|Hin] & Ht)|Ht].
        * right. now left.
        * left. now exists m', rts'.
        * right. now right. }
  rewrite H. simpl. tauto.
Qed.

Lemma all_return_types_NoDup o (g : Dict.t PySet.t) :
  NoDup (all_return_types_of o g).
Proof.
  unfold all_return_types_of.
  assert (N : NoDup PySet.empty) by constructor.
  revert N. generalize PySet.empty.
  induction g as [|item g IH]; intros acc N; simpl; [assumption|].
  apply IH, SetFacts.update_NoDup, N.
Qed.

Lemma import_step_In (D : Dict.t string) (l : list string) (acc : PySet.t)
    (line : string) :
  In line
    (fold_left
       (fun acc return_type =>
          if Dict.mem return_type D
          then PySet.add
                 (Dict.get_default return_type D EmptyString) acc
          else acc) l acc)
  <-> (exists t, In t l /\ Dict.get t D = Some line) \/ In line acc.
Proof.
  revert acc. induction l as [|t l IH]; intros acc; simpl.
  - split; [now right|]. intros [(t & [] & _)|H]; assumption.
  - rewrite IH. rewrite DictFacts.mem_get. unfold Dict.get_default.
    destruct (Dict.get t D) as [imp|] eqn:G.
    + rewrite SetFacts.add_In. split.
      * intros [(t' & Hin & Ht)|[->|H]].
        -- left. exists t'. split; [now right | assumption].
        -- left. exists t. split; [now left | assumption].
        -- now right.
      * intros [(t' & [<-|Hin] & Ht)|H].
        -- right. left. congruence.
        -- left. now exists t'.
        -- right. now right.
    + split.
      * intros [(t' & Hin & Ht)|H]; [|now right].
        left. exists t'. split; [now right | assumption].
      * intros [(t' & [<-|Hin] & Ht)|H]; [congruence| |now right].
        left. now exists t'.
Qed.

Lemma imports_needed_In o (all : PySet.t) (line : string) :
  In line (imports_needed_of o all)
  <-> exists t, In t all /\ Dict.get t TYPE_IMPORTS = Some line.
Proof.
  unfold imports_needed_of. rewrite import_step_In. split.
  - intros [(t & Hin & Ht)|[]]. exists t. split; [|assumption].
    now apply (SetFacts.iter_In o).
  - intros (t & Hin & Ht). left. exists t. split; [|assumption].
    now apply SetFacts.iter_In.
Qed.

Lemma import_step_NoDup (D : Dict.t string) (l : list string) (acc : PySet.t) :
  NoDup acc ->
  NoDup
    (fold_left
       (fun acc return_type =>
          if Dict.mem return_type D
          then PySet.add (Dict.get_default return_type D EmptyString) acc
          else acc) l acc).
Proof.
  revert acc. induction l as [|t l IH]; intros acc N; simpl; [assumption|].
  apply IH. destruct (Dict.mem t D); [|assumption].
  now apply SetFacts.add_NoDup.
Qed.

Lemma imports_needed_NoDup o (all : PySet.t) : NoDup (imports_needed_of o all).
Proof. apply import_step_NoDup. constructor. Qed.

(** The import lines are the imports of the types of the groups. *)
Lemma import_lines_In o (g : Dict.t PySet.t) (line : string) :
  In line (import_lines o g)
  <-> exists m rts t,
        In (m, rts) g /\ In t rts /\ Dict.get t TYPE_IMPORTS = Some line.
Proof.
  unfold import_lines. split.
  - intros H. apply (Permutation_in _ (SortFacts.sorted_perm _)) in H.
    apply SetFacts.iter_In, imports_needed_In in H.
    destruct H as (t & Ht & Hl). apply all_return_types_In in Ht.
    destruct Ht as (m & rts & Hin & Hr). now exists m, rts, t.
  - intros (m & rts & t & Hin & Hr & Hl).
    apply (Permutation_in _ (Permutation_sym (SortFacts.sorted_perm _))).
    apply SetFacts.iter_In, imports_needed_In.
    exists t. split; [|assumption].
    apply all_return_types_In. now exists m, rts.
Qed.

(** They come in strictly increasing order: sorted, none twice. *)
Lemma import_lines_strict o (g : Dict.t PySet.t) :
  StronglySorted StrOrder.lt (import_lines o g).
Proof.
  apply SortFacts.sorted_strict, SetFacts.iter_NoDup, imports_needed_NoDup.
Qed.

(** ** Union building *)

Lemma stub_type_single o (t : string) : stub_type_of o [t] = stub_name t.
Proof. unfold stub_type_of. simpl. now rewrite SetFacts.iter_singleton. Qed.

Lemma stub_type_union o (rts : PySet.t) :
  List.length rts <> 1 ->
  stub_type_of o rts
  = ("Union[" ++ Str.join ", " (map stub_name (sorted rts)) ++ "]")%string.
Proof.
  intros L. unfold stub_type_of.
  apply Nat.eqb_neq in L. rewrite L. cbv zeta.
  now rewrite (SortFacts.sorted_invariant
                 (Permutation_sym (iter_perm o rts))).
Qed.

(** The display type depends on the members of the set only: not on the
    order the set yields them in, not on the order they were added in. *)
Lemma stub_type_invariant o1 o2 (s1 s2 : PySet.t) :
  Permutation s1 s2 -> stub_type_of o1 s1 = stub_type_of o2 s2.
Proof.
  intros P. destruct (Nat.eq_dec (List.length s1) 1) as [L|L].
  - destruct s1 as [|t [|]]; try discriminate.
    apply Permutation_length_1_inv in P. subst s2.
    now rewrite !stub_type_single.
  - rewrite !stub_type_union;
      [|now rewrite <- (Permutation_length P)|assumption].
    now rewrite (SortFacts.sorted_invariant P).
Qed.

Lemma overload_invariant o1 o2 (m : string) (rts : PySet.t) :
  _generate_modality_overload o1 m rts = _generate_modality_overload o2 m rts.
Proof.
  unfold _generate_modality_overload. cbv zeta.
  now rewrite (stub_type_invariant o1 o2 (Permutation_refl rts)).
Qed.

(** ** The overloads *)

(** The blocks of the modalities of the fixed list, then of the others. *)
Definition ordered_part (o : SetOrder) (g : Dict.t PySet.t) : list string :=
  flat_map
    (fun m =>
       match Dict.get m g with
       | Some rts => _generate_modality_overload o m rts
       | None => []
       end)
    modality_order.

Definition other_part (o : SetOrder) (g : Dict.t PySet.t) : list string :=
  flat_map
    (fun item : string * PySet.t =>
       if negb (Str.mem (fst item) modality_order)
       then _generate_modality_overload o (fst item) (snd item)
       else [])
    g.

Lemma ordered_overloads_eq o g lines :
  ordered_overloads o g lines = lines ++ ordered_part o g.
Proof.
  unfold ordered_overloads, ordered_part, modality_order.
  cbn [fold_left flat_map].
  destruct (Dict.get "Image" g), (Dict.get "Text" g), (Dict.get "Video" g);
    rewrite ?app_nil_r, <- ?app_assoc; reflexivity.
Qed.

Lemma other_overloads_eq o g lines :
  other_overloads o g lines = lines ++ other_part o g.
Proof.
  unfold other_overloads, other_part. revert lines.
  induction g as [|item g IH]; intros lines; cbn [fold_left flat_map].
  - now rewrite app_nil_r.
  - rewrite IH. destruct (negb _); [now rewrite <- app_assoc | reflexivity].
Qed.

(** The shape of the text: header, imports, class head, overloads, the
    fallback overload and the other signatures. *)
Lemma stub_lines_eq o (suffix_info : Dict.t SuffixEntry) :
  stub_lines o suffix_info
  = HEADER ++ import_lines o (_group_by_modality suffix_info) ++ CLASS_HEAD
    ++ (ordered_part o (_group_by_modality suffix_info)
        ++ other_part o (_group_by_modality suffix_info))
    ++ FALLBACK.
Proof.
  unfold stub_lines. cbv zeta.
  rewrite other_overloads_eq, ordered_overloads_eq.
  now rewrite <- !app_assoc.
Qed.

Lemma flat_map_block (A : Type) (f : A -> list string) (l : list A) (x : A) :
  In x l -> exists pre post, flat_map f l = pre ++ f x ++ post.
Proof.
  intros H. apply in_split in H. destruct H as (l1 & l2 & ->).
  exists (flat_map f l1), (flat_map f l2).
  now rewrite flat_map_app.
Qed.

(** A modality with a group has its overload in the text. *)
Lemma overload_emitted o (suffix_info : Dict.t SuffixEntry) (m : string)
    (rts : PySet.t) :
  Dict.get m (_group_by_modality suffix_info) = Some rts ->
  exists pre post,
    stub_lines o suffix_info
    = pre ++ _generate_modality_overload o m rts ++ post.
Proof.
  intros G. rewrite stub_lines_eq.
  set (g := _group_by_modality suffix_info) in *.
  destruct (Str.mem m modality_order) eqn:M.
  - apply StrFacts.mem_In in M.
    destruct (flat_map_block
                (fun m => match Dict.get m g with
                          | Some rts => _generate_modality_overload o m rts
                          | None => []
                          end) _ _ M) as (pre & post & E).
    rewrite G in E. fold (ordered_part o g) in E.
    exists (HEADER ++ import_lines o g ++ CLASS_HEAD ++ pre),
           (post ++ other_part o g ++ FALLBACK).
    rewrite E. now rewrite <- !app_assoc.
  - apply DictFacts.get_In in G.
    destruct (flat_map_block
                (fun item : string * PySet.t =>
                   if negb (Str.mem (fst item) modality_order)
                   then _generate_modality_overload o (fst item) (snd item)
                   else []) _ _ G) as (pre & post & E).
    cbn [fst snd] in E. rewrite M in E. cbn [negb] in E.
    fold (other_part o g) in E.
    exists (HEADER ++ import_lines o g ++ CLASS_HEAD ++ ordered_part o g ++ pre),
           (post ++ FALLBACK).
    rewrite E. now rewrite <- !app_assoc.
Qed.

End Emit.

(** * The claims about union building and emission *)

(** The union in the words of the claim: the members' aliases, sorted. *)
Definition union_sorted_by_alias (return_types : PySet.t) : string :=
  ("Union[" ++ Str.join ", " (sorted (map stub_name return_types)) ++ "]")%string.

(** A modality whose handlers return a string and a video reader. *)
Definition media_registry : SuffixRegistry :=
  {| items :=
       [ ("Media",
          {| BaseIO := Some Sample.BaseText;
             base_suffixes := ["txt"];
             Custom := [("mp4", Some Sample.BaseVideo)] |}) ];
     collision_suffix := [] |}.

(** C1, the claim as stated fails: for the set of [str] and
    [torchvision.io.VideoReader] the code sorts the type strings and then
    substitutes the alias, which puts [str] before [VideoReader]; sorting
    the alias-substituted strings puts [VideoReader] first.  Either order of
    traversal of the set gives the same text. *)
Lemma union_order_is_not_alias_order :
  Dict.get "Media"
    (_group_by_modality (_collect_suffix_info insertion_order media_registry))
  = Some ["str"; "torchvision.io.VideoReader"]
  /\ nth 8 (_generate_modality_overload insertion_order "Media"
              ["str"; "torchvision.io.VideoReader"]) EmptyString
     = "    ) -> Union[str, VideoReader]: ..."
  /\ nth 8 (_generate_modality_overload reversed_order "Media"
              ["str"; "torchvision.io.VideoReader"]) EmptyString
     = "    ) -> Union[str, VideoReader]: ..."
  /\ union_sorted_by_alias ["str"; "torchvision.io.VideoReader"]
     = "Union[VideoReader, str]".
Proof. repeat split. Qed.

(** C1 (amended). For a modality whose set of resolved return types has two
    or more members, the return type of the emitted overload is
    [Union[...]] over the alias-substituted type strings, one per member of
    the set, in the lexicographic order of the members' own type strings
    (the order before substitution). *)
Theorem union_lists_members_in_type_order
    (o : SetOrder) (suffix_info : Dict.t SuffixEntry) (m : string)
    (rts : PySet.t) :
  Dict.get m (_group_by_modality suffix_info) = Some rts ->
  2 <= List.length rts ->
  exists members,
    Permutation members rts
    /\ StronglySorted StrOrder.lt members
    /\ nth 8 (_generate_modality_overload o m rts) EmptyString
       = ("    ) -> Union[" ++ Str.join ", " (map stub_name members)
            ++ "]: ...")%string
    /\ exists pre post,
         stub_lines o suffix_info
         = pre ++ _generate_modality_overload o m rts ++ post.
Proof.
  intros G L. exists (sorted rts). repeat split.
  - apply SortFacts.sorted_perm.
  - apply SortFacts.sorted_strict.
    apply DictFacts.get_In in G. exact (Emit.groups_are_sets _ _ _ G).
  - unfold _generate_modality_overload. cbv zeta. cbn [nth].
    rewrite Emit.stub_type_union by lia.
    generalize (Str.join ", " (map stub_name (sorted rts))). intros u.
    simpl. now rewrite StrFacts.append_assoc.
  - now apply Emit.overload_emitted.
Qed.

Lemma union_lists_members_in_type_order_witness :
  exists members,
    Permutation members ["str"; "torchvision.io.VideoReader"]
    /\ StronglySorted StrOrder.lt members
    /\ nth 8 (_generate_modality_overload insertion_order "Media"
                ["str"; "torchvision.io.VideoReader"]) EmptyString
       = ("    ) -> Union[" ++ Str.join ", " (map stub_name members)
            ++ "]: ...")%string
    /\ exists pre post,
         stub_lines insertion_order
           (_collect_suffix_info insertion_order media_registry)
         = pre ++ _generate_modality_overload insertion_order "Media"
                    ["str"; "torchvision.io.VideoReader"] ++ post.
Proof.
  apply (@union_lists_members_in_type_order insertion_order
           (_collect_suffix_info insertion_order media_registry) "Media"
           ["str"; "torchvision.io.VideoReader"]).
  - reflexivity.
  - simpl. lia.
Defined.

(** A registry with the one modality [Image]. *)
Definition image_registry : SuffixRegistry :=
  {| items := [("Image", Sample.plain Sample.BaseImage [".png"; "JPG"])];
     collision_suffix := [] |}.

(** C7. When the group of a modality is a single type [T], the overload
    emitted for the modality returns the alias registered for [T], or [T]
    itself when none is registered, and nothing around it. *)
Theorem single_type_overload_returns_alias
    (o : SetOrder) (suffix_info : Dict.t SuffixEntry) (m T : string) :
  Dict.get m (_group_by_modality suffix_info) = Some [T] ->
  nth 8 (_generate_modality_overload o m [T]) EmptyString
  = ("    ) -> "
     ++ match Dict.get T TYPE_STUB_NAMES with
        | Some alias => alias
        | None => T
        end
     ++ ": ...")%string
  /\ exists pre post,
       stub_lines o suffix_info
       = pre ++ _generate_modality_overload o m [T] ++ post.
Proof.
  intros G. split.
  - unfold _generate_modality_overload. cbv zeta. cbn [nth].
    now rewrite Emit.stub_type_single.
  - now apply Emit.overload_emitted.
Qed.

Lemma single_type_overload_returns_alias_witness :
  nth 8 (_generate_modality_overload reversed_order "Image" ["PIL.Image.Image"])
    EmptyString
  = ("    ) -> "
     ++ match Dict.get "PIL.Image.Image" TYPE_STUB_NAMES with
        | Some alias => alias
        | None => "PIL.Image.Image"
        end
     ++ ": ...")%string
  /\ exists pre post,
       stub_lines reversed_order
         (_collect_suffix_info reversed_order image_registry)
       = pre ++ _generate_modality_overload reversed_order "Image"
                  ["PIL.Image.Image"] ++ post.
Proof.
  apply (@single_type_overload_returns_alias reversed_order
           (_collect_suffix_info reversed_order image_registry)
           "Image" "PIL.Image.Image").
  reflexivity.
Defined.

(** C9. The text is the header, the import lines, the class head, the
    overloads and the closing signatures.  The import lines are strictly
    increasing (sorted, none twice), and a line is among them exactly when it
    is the import the static table gives for a return type of some
    modality's group; a type the table does not list adds no line. *)
Theorem import_lines_sorted_and_exact
    (o : SetOrder) (suffix_info : Dict.t SuffixEntry) :
  let modality_groups := _group_by_modality suffix_info in
  let imports := import_lines o modality_groups in
  (exists overloads,
     stub_lines o suffix_info
     = HEADER ++ imports ++ CLASS_HEAD ++ overloads ++ FALLBACK)
  /\ StronglySorted StrOrder.lt imports
  /\ (forall line,
        In line imports
        <-> exists m return_types t,
              In (m, return_types) modality_groups /\ In t return_types
              /\ Dict.get t TYPE_IMPORTS = Some line).
Proof.
  intros g imports. repeat split.
  - eexists. apply Emit.stub_lines_eq.
  - apply Emit.import_lines_strict.
  - apply Emit.import_lines_In.
  - apply Emit.import_lines_In.
Qed.

(** The import lines do not depend on the order sets are traversed in. *)
Lemma import_lines_invariant o1 o2 (g : Dict.t PySet.t) :
  import_lines o1 g = import_lines o2 g.
Proof.
  unfold import_lines. apply SortFacts.sorted_invariant.
  apply NoDup_Permutation.
  - apply SetFacts.iter_NoDup, Emit.imports_needed_NoDup.
  - apply SetFacts.iter_NoDup, Emit.imports_needed_NoDup.
  - intros line.
    rewrite !SetFacts.iter_In, !Emit.imports_needed_In.
    split; intros (t & Ht & Hl); exists t; (split; [|assumption]);
      apply Emit.all_return_types_In; now apply Emit.all_return_types_In in Ht.
Qed.

Lemma ordered_part_invariant o1 o2 (g : Dict.t PySet.t) :
  Emit.ordered_part o1 g = Emit.ordered_part o2 g.
Proof.
  apply flat_map_ext. intros m.
  destruct (Dict.get m g); [apply Emit.overload_invariant | reflexivity].
Qed.

Lemma other_part_invariant o1 o2 (g : Dict.t PySet.t) :
  Emit.other_part o1 g = Emit.other_part o2 g.
Proof.
  apply flat_map_ext. intros item.
  destruct (negb _); [apply Emit.overload_invariant | reflexivity].
Qed.

Lemma stub_lines_invariant o1 o2 (suffix_info : Dict.t SuffixEntry) :
  stub_lines o1 suffix_info = stub_lines o2 suffix_info.
Proof.
  rewrite !Emit.stub_lines_eq.
  now rewrite (import_lines_invariant o1 o2), (ordered_part_invariant o1 o2),
    (other_part_invariant o1 o2).
Qed.

(** For a fixed suffix table, generating the stub content gives the same
    text on every run, whatever order the interpreter traverses the sets in
    on either run; and union building reads its argument as a set: the same
    members give the same display type, in whatever order they were added
    or are yielded. *)
Theorem stub_content_order_free :
  (forall (o1 o2 : SetOrder) (suffix_info : Dict.t SuffixEntry),
     _generate_stub_content o1 suffix_info
     = _generate_stub_content o2 suffix_info)
  /\ (forall (o1 o2 : SetOrder) (s1 s2 : PySet.t),
        Permutation s1 s2 -> stub_type_of o1 s1 = stub_type_of o2 s2).
Proof.
  split.
  - intros o1 o2 suffix_info. unfold _generate_stub_content.
    now rewrite (stub_lines_invariant o1 o2).
  - intros o1 o2 s1 s2 P. now apply Emit.stub_type_invariant.
Qed.

Lemma stub_content_order_free_witness :
  _generate_stub_content insertion_order
    (_collect_suffix_info insertion_order media_registry)
  = _generate_stub_content reversed_order
      (_collect_suffix_info insertion_order media_registry)
  /\ stub_type_of insertion_order ["str"; "dict[str, Any]"]
     = stub_type_of reversed_order ["dict[str, Any]"; "str"].
Proof.
  split.
  - apply (proj1 stub_content_order_free).
  - apply (proj2 stub_content_order_free). apply perm_swap.
Defined.

(** * The table and the order of traversal *)

(** What a record registers does not depend on the order in which its set
    of base suffixes is traversed. *)
Lemma written_order_free o1 o2 coll item k :
  Collect.written o1 coll item k = Collect.written o2 coll item k.
Proof.
  rewrite !Collect.written_unfold.
  destruct (Overwrite.last_write _ (Custom (snd item)) k); [reflexivity|].
  destruct (BaseIO (snd item)) as [b|]; [|reflexivity].
  assert (H : forall oa ob e,
    Overwrite.last_write
      (Collect.base_writes coll (fst item) b (Custom (snd item)))
      (iter oa (PySet.of_list (base_suffixes (snd item)))) k = Some e ->
    Overwrite.last_write
      (Collect.base_writes coll (fst item) b (Custom (snd item)))
      (iter ob (PySet.of_list (base_suffixes (snd item)))) k = Some e).
  { intros oa ob e L. apply Collect.base_last_inv in L.
    destruct L as (-> & M & s & Hin & <-).
    apply Collect.base_last_some; [|assumption].
    now apply SetFacts.iter_In, (SetFacts.iter_In oa). }
  destruct (Overwrite.last_write _ (iter o1 _) k) as [e1|] eqn:L1.
  - symmetry. now apply (H o1 o2).
  - destruct (Overwrite.last_write _ (iter o2 _) k) as [e2|] eqn:L2;
      [|reflexivity].
    apply (H o2 o1) in L2. congruence.
Qed.

Lemma last_write_ext (V A : Type) (w1 w2 : A -> string -> option V)
    (l : list A) (k : string) :
  (forall a, w1 a k = w2 a k) ->
  Overwrite.last_write w1 l k = Overwrite.last_write w2 l k.
Proof.
  intros E. induction l as [|a l IH]; simpl; [reflexivity|].
  now rewrite IH, E.
Qed.

(** As a mapping, the suffix table is the same whatever order the sets of
    base suffixes are traversed in. *)
Theorem table_lookup_order_free
    (o1 o2 : SetOrder) (reg : SuffixRegistry) (k : string) :
  Dict.get k (_collect_suffix_info o1 reg)
  = Dict.get k (_collect_suffix_info o2 reg).
Proof.
  rewrite !Collect.get_collect. apply last_write_ext.
  intros item. apply written_order_free.
Qed.

(** Two modalities outside the fixed list sharing the suffix [dat]. *)
Definition audio_binary_registry : SuffixRegistry :=
  {| items :=
       [ ("Audio", Sample.plain Sample.Waveform ["dat"; "wav"]);
         ("Binary", Sample.plain Sample.Blob ["dat"]) ];
     collision_suffix := ["dat"] |}.

(** C5, evaluated where it fails.  The registry is the same on both runs;
    the runs differ in the order in which the interpreter yields the members
    of [Audio]'s set of base suffixes.  [Audio] writes [dat] and [wav] in
    that order, [Binary] takes [dat] over in its place, the groups come in
    the order of the table, and neither modality is in the fixed list: the
    two runs emit the two overloads in opposite orders, so the two texts
    differ.  The traversal of the base suffixes is the one traversal of a set
    that the generator neither sorts nor makes irrelevant. *)
Theorem generation_follows_set_traversal :
  Dict.keys (_collect_suffix_info insertion_order audio_binary_registry)
  = ["dat"; "wav"]
  /\ Dict.keys (_collect_suffix_info reversed_order audio_binary_registry)
     = ["wav"; "dat"]
  /\ Dict.keys
       (_group_by_modality
          (_collect_suffix_info insertion_order audio_binary_registry))
     = ["Binary"; "Audio"]
  /\ Dict.keys
       (_group_by_modality
          (_collect_suffix_info reversed_order audio_binary_registry))
     = ["Audio"; "Binary"]
  /\ String.eqb
       (generate_io_stubs_content insertion_order audio_binary_registry)
       (generate_io_stubs_content reversed_order audio_binary_registry)
     = false.
Proof. repeat split; vm_compute; reflexivity. Qed.

(** * Further properties of the module *)

(** ** What the suffix table holds *)

(** A record registers a suffix key through a non-null override whose key
    normalises to it, or through a base suffix normalising to it when the
    record has a base handler and the key is not a key of its overrides. *)
Definition registers (rec : ModalityRecord) (k : string) : Prop :=
  (exists s h, In (s, Some h) (Custom rec) /\ normalize s = k)
  \/ (exists b s, BaseIO rec = Some b /\ In s (base_suffixes rec)
                  /\ normalize s = k /\ Dict.mem k (Custom rec) = false).

Lemma registers_written o coll m rec k :
  registers rec k <-> exists e, Collect.written o coll (m, rec) k = Some e.
Proof.
  split.
  - intros [(s & h & Hin & <-)|(b & s & Hb & Hin & <- & M)];
      rewrite Collect.written_unfold; simpl.
    + destruct (@Collect.custom_last_some coll m _ _ _ Hin) as (e & ->). eauto.
    + destruct (Overwrite.last_write _ (Custom rec) (normalize s)); [eauto|].
      rewrite Hb. rewrite Collect.base_last_some; [eauto| |assumption].
      now apply SetFacts.iter_In, SetFacts.of_list_In.
  - intros (e & W). apply Collect.written_inv in W.
    destruct W as (h & _ & [(s & Hin & Hk)|(Hb & M & s & Hin & Hk)]).
    + left. eauto.
    + right. exists h, s. auto.
Qed.

(** A suffix key has an entry in the table exactly when some record of the
    registry registers it; in particular an empty registry, or one whose
    records have neither a base handler nor a non-null override, gives an
    empty table. *)
Theorem resolved_iff_registered
    (o : SetOrder) (reg : SuffixRegistry) (k : string) :
  (exists e, Dict.get k (_collect_suffix_info o reg) = Some e)
  <-> exists m rec, In (m, rec) (items reg) /\ registers rec k.
Proof.
  split.
  - intros (e & G). rewrite Collect.get_collect in G.
    apply Overwrite.last_write_some in G. destruct G as ([m rec] & Hin & W).
    exists m, rec. split; [assumption|].
    apply (registers_written o (collision_suffix reg) m). eauto.
  - intros (m & rec & Hin & R).
    apply (registers_written o (collision_suffix reg) m) in R.
    destruct R as (e & W). exact (registered_has_entry _ _ _ _ Hin W).
Qed.

(** Every entry of the table comes from the registry: its modality is the
    name of a record, its handler is a non-null override of that record for
    a key that normalises to the entry's key, or the record's base handler
    for such a base suffix, and its return type is the type that handler
    resolves to. *)
Theorem entries_come_from_registry
    (o : SetOrder) (reg : SuffixRegistry) (k : string) (e : SuffixEntry) :
  In (k, e) (_collect_suffix_info o reg) ->
  exists rec,
    In (modality e, rec) (items reg)
    /\ return_type e = _get_handler_return_type (handler e)
    /\ ((exists s, In (s, Some (handler e)) (Custom rec) /\ normalize s = k)
        \/ (BaseIO rec = Some (handler e)
            /\ Dict.mem k (Custom rec) = false
            /\ exists s, In s (base_suffixes rec) /\ normalize s = k)).
Proof.
  intros Hin.
  assert (G : Dict.get k (_collect_suffix_info o reg) = Some e).
  { destruct (Collect.good_collect o reg) as [N _]. revert N Hin.
    induction (_collect_suffix_info o reg) as [|[k' e'] d IH]; simpl;
      [contradiction|].
    intros N Hin. apply NoDup_cons_iff in N. destruct N as [Nk N].
    destruct Hin as [[= -> ->]|Hin]; [now rewrite String.eqb_refl|].
    destruct (String.eqb k k') eqn:E; [|now apply IH].
    apply String.eqb_eq in E. subst k'. exfalso. apply Nk.
    change k with (fst (k, e)). now apply in_map. }
  rewrite Collect.get_collect in G.
  apply Overwrite.last_write_some in G. destruct G as ([m rec] & Hreg & W).
  apply Collect.written_inv in W. destruct W as (h & -> & Hfrom).
  exists rec. simpl. repeat split; assumption.
Qed.

Lemma entries_come_from_registry_witness :
  exists rec,
    In (modality (entry_of [] "Text" Sample.JsonText "json"), rec)
      (items Sample.json_override)
    /\ return_type (entry_of [] "Text" Sample.JsonText "json")
       = _get_handler_return_type
           (handler (entry_of [] "Text" Sample.JsonText "json"))
    /\ ((exists s,
           In (s, Some (handler (entry_of [] "Text" Sample.JsonText "json")))
             (Custom rec) /\ normalize s = "json")
        \/ (BaseIO rec = Some (handler (entry_of [] "Text" Sample.JsonText "json"))
            /\ Dict.mem "json" (Custom rec) = false
            /\ exists s, In s (base_suffixes rec) /\ normalize s = "json")).
Proof.
  apply (@entries_come_from_registry insertion_order Sample.json_override
           "json" (entry_of [] "Text" Sample.JsonText "json")).
  simpl. auto.
Defined.

(** ** What the groups hold *)

Module Group.

(** The body of the loop of [_group_by_modality]. *)
Definition step (groups : Dict.t PySet.t) (item : string * SuffixEntry)
    : Dict.t PySet.t :=
  let info := snd item in
  let groups :=
    if negb (Dict.mem (modality info) groups)
    then Dict.set (modality info) PySet.empty groups
    else groups in
  Dict.set (modality info)
    (PySet.add (return_type info)
       (Dict.get_default (modality info) groups PySet.empty))
    groups.

Lemma group_fold (suffix_info : Dict.t SuffixEntry) :
  _group_by_modality suffix_info = fold_left step suffix_info [].
Proof. reflexivity. Qed.

Lemma step_get (g : Dict.t PySet.t) (item : string * SuffixEntry) (m : string) :
  Dict.get m (step g item)
  = if String.eqb (modality (snd item)) m
    then Some (PySet.add (return_type (snd item))
                 (Dict.get_default (modality (snd item)) g PySet.empty))
    else Dict.get m g.
Proof.
  unfold step. cbv zeta. set (mi := modality (snd item)).
  rewrite DictFacts.get_set.
  destruct (Dict.mem mi g) eqn:M; simpl.
  - reflexivity.
  - unfold Dict.get_default. rewrite DictFacts.get_set_same.
    rewrite DictFacts.mem_get in M.
    destruct (Dict.get mi g) eqn:G; [discriminate|].
    destruct (String.eqb mi m) eqn:E; [reflexivity|].
    apply String.eqb_neq in E. apply DictFacts.get_set_other. congruence.
Qed.

Lemma mem_keys_bool (V : Type) (k : string) (d : Dict.t V) :
  Dict.mem k d = Str.mem k (Dict.keys d).
Proof.
  unfold Dict.mem, Str.mem, Dict.keys.
  induction d as [|kv d IH]; simpl; [reflexivity | now rewrite IH].
Qed.

Lemma step_keys (g : Dict.t PySet.t) (item : string * SuffixEntry) :
  Dict.keys (step g item) = PySet.add (modality (snd item)) (Dict.keys g).
Proof.
  unfold step, PySet.add. cbv zeta. set (mi := modality (snd item)).
  rewrite <- mem_keys_bool.
  destruct (Dict.mem mi g) eqn:M; simpl.
  - now rewrite DictFacts.keys_set, M.
  - rewrite DictFacts.keys_set.
    assert (M' : Dict.mem mi (Dict.set mi PySet.empty g) = true).
    { rewrite DictFacts.mem_get, DictFacts.get_set_same. reflexivity. }
    rewrite M'. now rewrite DictFacts.keys_set, M.
Qed.

Lemma fold_keys (l : Dict.t SuffixEntry) (g : Dict.t PySet.t) :
  Dict.keys (fold_left step l g)
  = fold_left (fun s x => PySet.add x s)
      (map (fun item : string * SuffixEntry => modality (snd item)) l)
      (Dict.keys g).
Proof.
  revert g. induction l as [|item l IH]; intros g; simpl; [reflexivity|].
  now rewrite IH, step_keys.
Qed.

(** The types a table gives a modality. *)
Definition gives (l : Dict.t SuffixEntry) (m t : string) : Prop :=
  exists k e, In (k, e) l /\ modality e = m /\ return_type e = t.

Definition holds (g : Dict.t PySet.t) (m t : string) : Prop :=
  exists rts, Dict.get m g = Some rts /\ In t rts.

Lemma step_holds (g : Dict.t PySet.t) (item : string * SuffixEntry)
    (m t : string) :
  holds (step g item) m t
  <-> holds g m t \/ (modality (snd item) = m /\ return_type (snd item) = t).
Proof.
  unfold holds. rewrite step_get.
  destruct (String.eqb (modality (snd item)) m) eqn:E.
  - apply String.eqb_eq in E. split.
    + intros (rts & [= <-] & Hin). apply SetFacts.add_In in Hin.
      destruct Hin as [->|Hin]; [now right|]. left.
      unfold Dict.get_default in Hin. rewrite E in Hin.
      destruct (Dict.get m g) as [r|]; [eauto | contradiction].
    + intros H. eexists. split; [reflexivity|]. apply SetFacts.add_In.
      destruct H as [(rts & G & Hin)|[_ ->]]; [|now left]. right.
      unfold Dict.get_default. rewrite E, G. exact Hin.
  - apply String.eqb_neq in E. split; [now left|].
    intros [H|[H _]]; [assumption | contradiction].
Qed.

Lemma fold_holds (l : Dict.t SuffixEntry) (g : Dict.t PySet.t) (m t : string) :
  holds (fold_left step l g) m t <-> holds g m t \/ gives l m t.
Proof.
  revert g. induction l as [|[k e] l IH]; intros g; simpl.
  - split; [now left|]. intros [H|(k & e & [] & _)]. exact H.
  - rewrite IH, step_holds. simpl. unfold gives. split.
    + intros [[H|[Hm Ht]]|(k' & e' & Hin & Hm & Ht)].
      * now left.
      * right. exists k, e. split; [now left | now split].
      * right. exists k', e'. split; [now right | now split].
    + intros [H|(k' & e' & [[= <- <-]|Hin] & Hm & Ht)].
      * left. now left.
      * left. right. now split.
      * right. now exists k', e'.
Qed.

(** No group is empty. *)
Definition inhabited (g : Dict.t PySet.t) : Prop :=
  forall m rts, Dict.get m g = Some rts -> rts <> [].

Lemma add_not_empty (x : string) (s : PySet.t) : PySet.add x s <> [].
Proof.
  unfold PySet.add. destruct (Str.mem x s) eqn:M.
  - apply StrFacts.mem_In in M. intros ->. contradiction.
  - intros H. apply app_eq_nil in H. destruct H as [_ H]. discriminate.
Qed.

Lemma fold_inhabited (l : Dict.t SuffixEntry) (g : Dict.t PySet.t) :
  inhabited g -> inhabited (fold_left step l g).
Proof.
  revert g. induction l as [|item l IH]; intros g I; simpl; [assumption|].
  apply IH. intros m rts. rewrite step_get.
  destruct (String.eqb _ m); [|apply I].
  intros [= <-]. apply add_not_empty.
Qed.

Lemma keys_NoDup (suffix_info : Dict.t SuffixEntry) :
  NoDup (Dict.keys (_group_by_modality suffix_info)).
Proof.
  rewrite group_fold, fold_keys. apply SetFacts.fold_add_NoDup. constructor.
Qed.

Lemma keys_In (suffix_info : Dict.t SuffixEntry) (m : string) :
  In m (Dict.keys (_group_by_modality suffix_info))
  <-> exists k e, In (k, e) suffix_info /\ modality e = m.
Proof.
  rewrite group_fold, fold_keys, SetFacts.fold_add_In, in_map_iff. simpl.
  split.
  - intros [([k e] & <- & Hin)|[]]. now exists k, e.
  - intros (k & e & Hin & <-). left. now exists (k, e).
Qed.

(** In a dictionary an item is what the lookup of its key gives. *)
Lemma In_get (V : Type) (d : Dict.t V) (k : string) (v : V) :
  NoDup (Dict.keys d) -> In (k, v) d -> Dict.get k d = Some v.
Proof.
  induction d as [|[k' v'] d IH]; simpl; [contradiction|].
  intros N Hin. apply NoDup_cons_iff in N. destruct N as [Nk N].
  destruct Hin as [[= -> ->]|Hin]; [now rewrite String.eqb_refl|].
  destruct (String.eqb k k') eqn:E; [|now apply IH].
  apply String.eqb_eq in E. subst k'. exfalso. apply Nk.
  change k with (fst (k, v)). now apply in_map.
Qed.

End Group.

(** Grouping is exact.  The modalities of the groups are those of the
    entries, each once, in the order in which the table first shows them; the
    group of a modality is a set, is not empty, and holds exactly the return
    types of the entries of that modality. *)
Theorem groups_partition_return_types (suffix_info : Dict.t SuffixEntry) :
  let modality_groups := _group_by_modality suffix_info in
  Dict.keys modality_groups
  = PySet.of_list
      (map (fun item : string * SuffixEntry => modality (snd item)) suffix_info)
  /\ NoDup (Dict.keys modality_groups)
  /\ (forall m return_types,
        Dict.get m modality_groups = Some return_types ->
        NoDup return_types /\ return_types <> []
        /\ forall t,
             In t return_types
             <-> exists k e, In (k, e) suffix_info
                             /\ modality e = m /\ return_type e = t).
Proof.
  intros g. repeat split.
  - unfold g. now rewrite Group.group_fold, Group.fold_keys.
  - apply Group.keys_NoDup.
  - apply DictFacts.get_In in H. exact (Emit.groups_are_sets _ _ _ H).
  - revert H. unfold g. rewrite Group.group_fold.
    apply Group.fold_inhabited. intros m' rts'. discriminate.
  - intros Hin.
    assert (Hh : Group.holds g m t) by (exists return_types; now split).
    unfold g in Hh. rewrite Group.group_fold, Group.fold_holds in Hh.
    destruct Hh as [(rts & G & _)|Hg]; [discriminate | exact Hg].
  - intros Hg.
    assert (Hh : Group.holds g m t).
    { unfold g. rewrite Group.group_fold, Group.fold_holds. now right. }
    destruct Hh as (rts & G & Hin). congruence.
Qed.

(** ** The overloads of the stub *)

(** The modalities in the order their overloads are emitted: those of the
    fixed list that have a group, then the other modalities of the groups. *)
Definition emission_order (modality_groups : Dict.t PySet.t) : list string :=
  filter (fun m => Dict.mem m modality_groups) modality_order
  ++ filter (fun m => negb (Str.mem m modality_order))
       (Dict.keys modality_groups).

Module Order.

Lemma ordered_part_filter o (g : Dict.t PySet.t) (l : list string) :
  flat_map
    (fun m =>
       match Dict.get m g with
       | Some rts => _generate_modality_overload o m rts
       | None => []
       end) l
  = flat_map
      (fun m => _generate_modality_overload o m
                  (Dict.get_default m g PySet.empty))
      (filter (fun m => Dict.mem m g) l).
Proof.
  induction l as [|m l IH]; simpl; [reflexivity|].
  rewrite IH, DictFacts.mem_get. unfold Dict.get_default.
  destruct (Dict.get m g) as [rts|] eqn:G; simpl; [|reflexivity].
  now rewrite G.
Qed.

Lemma other_part_filter o (g : Dict.t PySet.t) (l : Dict.t PySet.t) :
  (forall m rts, In (m, rts) l -> Dict.get m g = Some rts) ->
  flat_map
    (fun item : string * PySet.t =>
       if negb (Str.mem (fst item) modality_order)
       then _generate_modality_overload o (fst item) (snd item)
       else []) l
  = flat_map
      (fun m => _generate_modality_overload o m
                  (Dict.get_default m g PySet.empty))
      (filter (fun m => negb (Str.mem m modality_order)) (Dict.keys l)).
Proof.
  unfold Dict.keys.
  induction l as [|[m rts] l IH]; intros H; [reflexivity|].
  cbn [flat_map map filter fst snd].
  rewrite IH by (intros m' rts' Hin; apply H; now right).
  destruct (negb (Str.mem m modality_order)); [|reflexivity].
  cbn [flat_map]. unfold Dict.get_default at 2.
  now rewrite (H m rts (or_introl eq_refl)).
Qed.

Lemma emission_order_perm (g : Dict.t PySet.t) :
  NoDup (Dict.keys g) -> Permutation (emission_order g) (Dict.keys g).
Proof.
  intros N. unfold emission_order. apply NoDup_Permutation.
  - apply NoDup_app.
    + apply NoDup_filter. unfold modality_order.
      repeat constructor; simpl; intuition discriminate.
    + now apply NoDup_filter.
    + intros m H1 H2. apply filter_In in H1, H2.
      destruct H1 as [H1 _]. destruct H2 as [_ H2].
      apply StrFacts.mem_In in H1. rewrite H1 in H2. discriminate.
  - assumption.
  - intros m. rewrite in_app_iff, !filter_In. split.
    + intros [[_ M]|[H _]]; [now apply DictFacts.mem_keys | assumption].
    + intros H. destruct (Str.mem m modality_order) eqn:M.
      * left. split; [now apply StrFacts.mem_In | now apply DictFacts.mem_keys].
      * right. now split.
Qed.

End Order.

(** One overload per modality.  Between the class head and the closing
    signatures the text holds, for each modality of the groups exactly once,
    the overload of that modality with the modality's group; the modalities
    of the fixed list come first, in the order of the list, then the others
    in the order of the groups. *)
Theorem one_overload_per_modality
    (o : SetOrder) (suffix_info : Dict.t SuffixEntry) :
  let modality_groups := _group_by_modality suffix_info in
  stub_lines o suffix_info
  = HEADER ++ import_lines o modality_groups ++ CLASS_HEAD
    ++ flat_map
         (fun m => _generate_modality_overload o m
                     (Dict.get_default m modality_groups PySet.empty))
         (emission_order modality_groups)
    ++ FALLBACK
  /\ Permutation (emission_order modality_groups) (Dict.keys modality_groups)
  /\ NoDup (emission_order modality_groups).
Proof.
  intros g.
  assert (N : NoDup (Dict.keys g)) by apply Group.keys_NoDup.
  assert (P := @Order.emission_order_perm g N).
  repeat split.
  - rewrite Emit.stub_lines_eq. fold g.
    unfold emission_order. rewrite flat_map_app.
    unfold Emit.ordered_part, Emit.other_part.
    rewrite Order.ordered_part_filter.
    rewrite (@Order.other_part_filter o g g)
      by (intros m rts; now apply Group.In_get).
    reflexivity.
  - exact P.
  - eapply Permutation_NoDup; [apply Permutation_sym, P | exact N].
Qed.

(** Every alias that an overload uses is imported: when a return type of
    some group is shown under another name than its own, the import the
    static table gives for that type is among the import lines. *)
Theorem alias_used_is_imported
    (o : SetOrder) (suffix_info : Dict.t SuffixEntry)
    (m t : string) (return_types : PySet.t) :
  In (m, return_types) (_group_by_modality suffix_info) ->
  In t return_types ->
  stub_name t <> t ->
  exists line,
    Dict.get t TYPE_IMPORTS = Some line
    /\ In line (import_lines o (_group_by_modality suffix_info)).
Proof.
  intros Hg Ht Ha.
  assert (I : exists line, Dict.get t TYPE_IMPORTS = Some line).
  { unfold stub_name, Dict.get_default, TYPE_STUB_NAMES, TYPE_IMPORTS in *.
    cbn [Dict.get] in *.
    destruct (String.eqb t "PIL.Image.Image"); [eauto|].
    destruct (String.eqb t "torchvision.io.VideoReader"); [eauto|].
    now contradiction Ha. }
  destruct I as (line & L). exists line. split; [assumption|].
  apply Emit.import_lines_In. now exists m, return_types, t.
Qed.

Lemma alias_used_is_imported_witness :
  exists line,
    Dict.get "torchvision.io.VideoReader" TYPE_IMPORTS = Some line
    /\ In line
         (import_lines reversed_order
            (_group_by_modality
               (_collect_suffix_info reversed_order media_registry))).
Proof.
  apply (@alias_used_is_imported reversed_order
           (_collect_suffix_info reversed_order media_registry)
           "Media" "torchvision.io.VideoReader"
           ["str"; "torchvision.io.VideoReader"]).
  - simpl. auto.
  - simpl. auto.
  - discriminate.
Defined.

(** ** The summary of the registry *)

Module Summary.

Lemma suffixes_of_cons (item : string * SuffixEntry) (l : Dict.t SuffixEntry)
    (m : string) :
  List.length (suffixes_of (item :: l) m)
  = (if String.eqb (modality (snd item)) m then 1 else 0)
    + List.length (suffixes_of l m).
Proof.
  unfold suffixes_of. simpl.
  destruct (String.eqb (modality (snd item)) m); reflexivity.
Qed.

Lemma list_sum_plus (A : Type) (a b : A -> nat) (l : list A) :
  list_sum (map (fun x => a x + b x) l)
  = list_sum (map a l) + list_sum (map b l).
Proof. induction l as [|x l IH]; simpl; [reflexivity | rewrite IH; lia]. Qed.

Lemma indicator_zero (mx : string) (ms : list string) :
  ~ In mx ms ->
  list_sum (map (fun m => if String.eqb mx m then 1 else 0) ms) = 0.
Proof.
  induction ms as [|m ms IH]; simpl; [reflexivity|]. intros N.
  destruct (String.eqb mx m) eqn:E.
  - apply String.eqb_eq in E. subst. exfalso. apply N. now left.
  - apply IH. intros H. apply N. now right.
Qed.

Lemma indicator_one (mx : string) (ms : list string) :
  NoDup ms -> In mx ms ->
  list_sum (map (fun m => if String.eqb mx m then 1 else 0) ms) = 1.
Proof.
  induction 1 as [|m ms Nm N IH]; simpl; [contradiction|].
  intros [->|Hin].
  - rewrite String.eqb_refl. now rewrite indicator_zero.
  - destruct (String.eqb mx m) eqn:E.
    + apply String.eqb_eq in E. subst. contradiction.
    + now apply IH.
Qed.

(** Counting the suffixes modality by modality counts every suffix once. *)
Lemma count_sum (ms : list string) (l : Dict.t SuffixEntry) :
  NoDup ms ->
  (forall item, In item l -> In (modality (snd item)) ms) ->
  list_sum (map (fun m => List.length (suffixes_of l m)) ms) = List.length l.
Proof.
  intros N. induction l as [|item l IH]; intros H.
  - simpl. clear N H. induction ms as [|m ms IHm]; simpl; [reflexivity|].
    exact IHm.
  - rewrite (map_ext _ _ (suffixes_of_cons item l)).
    rewrite (list_sum_plus
               (fun m => if String.eqb (modality (snd item)) m then 1 else 0)
               (fun m => List.length (suffixes_of l m))).
    rewrite indicator_one; [|assumption|apply H; now left].
    rewrite IH; [reflexivity|]. intros it Hin. apply H. now right.
Qed.

Lemma rows_fold o (suffix_info : Dict.t SuffixEntry) (g : Dict.t PySet.t)
    (out : list string) :
  fold_left (fun out item => out ++ summary_rows o suffix_info item) g out
  = out ++ flat_map (summary_rows o suffix_info) g.
Proof.
  revert out. induction g as [|item g IH]; intros out; simpl.
  - now rewrite app_nil_r.
  - now rewrite IH, <- app_assoc.
Qed.

End Summary.

(** The number of entries of a table with a given modality. *)
Definition entries_of_modality (suffix_info : Dict.t SuffixEntry) (m : string)
    : nat :=
  count_occ string_dec
    (map (fun item : string * SuffixEntry => modality (snd item)) suffix_info) m.

Lemma suffixes_of_count (suffix_info : Dict.t SuffixEntry) (m : string) :
  List.length (suffixes_of suffix_info m) = entries_of_modality suffix_info m.
Proof.
  unfold entries_of_modality.
  induction suffix_info as [|item l IH]; [reflexivity|].
  rewrite Summary.suffixes_of_cons, IH. cbn [map count_occ].
  destruct (string_dec (modality (snd item)) m) as [E|E].
  - apply String.eqb_eq in E. now rewrite E.
  - apply String.eqb_neq in E. now rewrite E.
Qed.

(** The summary is the title and the rule, then for each modality of the
    groups, in their order, one line with the modality and the number of
    table entries of that modality and one line with the sorted return
    types of its group, then the collision line when the collision set has a
    member.  The numbers printed add up to the size of the table, every
    suffix being counted under exactly one modality, and no modality is
    listed with zero suffixes. *)
Theorem summary_counts_every_suffix_once
    (o : SetOrder) (show : list string -> string) (reg : SuffixRegistry) :
  let suffix_info := _collect_suffix_info o reg in
  let modality_groups := _group_by_modality suffix_info in
  print_registry_summary o show reg
  = ["IORegistry Summary:"; times "-" 40]
    ++ flat_map
         (fun item : string * PySet.t =>
            [ ("  " ++ fst item ++ ": "
                 ++ str_of_nat (entries_of_modality suffix_info (fst item))
                 ++ " suffixes")%string;
              ("    Return types: "
                 ++ Str.join ", " (sorted (iter o (snd item))))%string ])
         modality_groups
    ++ match collision_suffix reg with
       | [] => []
       | _ :: _ =>
           [(Str.nl ++ "Collision suffixes: "
               ++ show (iter o (collision_suffix reg)))%string]
       end
  /\ list_sum
       (map (entries_of_modality suffix_info) (Dict.keys modality_groups))
     = List.length suffix_info
  /\ (forall m, In m (Dict.keys modality_groups) ->
                1 <= entries_of_modality suffix_info m).
Proof.
  intros info g. repeat split.
  - unfold print_registry_summary. cbv zeta. fold info. fold g.
    rewrite Summary.rows_fold.
    assert (R : forall item,
              summary_rows o info item
              = [ ("  " ++ fst item ++ ": "
                     ++ str_of_nat (entries_of_modality info (fst item))
                     ++ " suffixes")%string;
                  ("    Return types: "
                     ++ Str.join ", " (sorted (iter o (snd item))))%string ]).
    { intros item. unfold summary_rows. cbv zeta.
      now rewrite suffixes_of_count. }
    rewrite (flat_map_ext _ _ R).
    destruct (collision_suffix reg); [now rewrite app_nil_r|].
    now rewrite <- app_assoc.
  - rewrite <- (map_ext _ _ (suffixes_of_count info)).
    apply Summary.count_sum; [apply Group.keys_NoDup|].
    intros [k e] Hin. apply Group.keys_In. now exists k, e.
  - intros m Hm. apply Group.keys_In in Hm.
    destruct Hm as (k & e & Hin & Hmod).
    rewrite <- suffixes_of_count.
    unfold suffixes_of. rewrite length_map.
    assert (F : In (k, e)
                  (filter (fun item : string * SuffixEntry =>
                             String.eqb (modality (snd item)) m) info)).
    { apply filter_In. split; [assumption|]. simpl.
      now apply String.eqb_eq. }
    destruct (filter _ info); [contradiction | simpl; lia].
Qed.

(** ** What is written to the stub file *)

Module Stable.

(** The text reads the table through the groups only. *)
Lemma content_of_groups o (t1 t2 : Dict.t SuffixEntry) :
  _group_by_modality t1 = _group_by_modality t2 ->
  _generate_stub_content o t1 = _generate_stub_content o t2.
Proof.
  intros E. unfold _generate_stub_content, stub_lines. cbv zeta.
  now rewrite E.
Qed.

Lemma groups_collision_free o (its : Dict.t ModalityRecord) (c1 c2 : list string) :
  _group_by_modality
    (_collect_suffix_info o {| items := its; collision_suffix := c1 |})
  = _group_by_modality
      (_collect_suffix_info o {| items := its; collision_suffix := c2 |}).
Proof.
  rewrite <- (Flag.group_erase_all (_collect_suffix_info o _)).
  rewrite <- (Flag.group_erase_all
                (_collect_suffix_info o {| items := its; collision_suffix := c2 |})).
  now rewrite !Flag.erase_collect.
Qed.

(** The two tables of two traversal orders hold the same items. *)
Lemma same_items o1 o2 reg (k : string) (e : SuffixEntry) :
  In (k, e) (_collect_suffix_info o1 reg)
  -> In (k, e) (_collect_suffix_info o2 reg).
Proof.
  intros Hin. apply DictFacts.get_In.
  apply Group.In_get in Hin; [|apply Collect.good_collect].
  rewrite <- Hin. rewrite !Collect.get_collect.
  apply last_write_ext. intros item. apply written_order_free.
Qed.

Lemma same_gives o1 o2 reg (m t : string) :
  Group.gives (_collect_suffix_info o1 reg) m t
  -> Group.gives (_collect_suffix_info o2 reg) m t.
Proof.
  intros (k & e & Hin & H). exists k, e. split; [|assumption].
  now apply (same_items o1 o2).
Qed.

Lemma group_members (suffix_info : Dict.t SuffixEntry) (m t : string)
    (rts : PySet.t) :
  Dict.get m (_group_by_modality suffix_info) = Some rts ->
  (In t rts <-> Group.gives suffix_info m t).
Proof.
  intros G. split.
  - intros Hin.
    assert (Hh : Group.holds (_group_by_modality suffix_info) m t)
      by (now exists rts).
    rewrite Group.group_fold, Group.fold_holds in Hh.
    destruct Hh as [(r & G' & _)|Hg]; [discriminate | exact Hg].
  - intros Hg.
    assert (Hh : Group.holds (_group_by_modality suffix_info) m t).
    { rewrite Group.group_fold, Group.fold_holds. now right. }
    destruct Hh as (r & G' & Hin). congruence.
Qed.

Lemma group_present (suffix_info : Dict.t SuffixEntry) (m : string) :
  (exists rts, Dict.get m (_group_by_modality suffix_info) = Some rts)
  <-> exists k e, In (k, e) suffix_info /\ modality e = m.
Proof.
  rewrite <- Group.keys_In, <- DictFacts.mem_keys, DictFacts.mem_get.
  destruct (Dict.get m _) as [rts|]; split; try discriminate; eauto.
  intros (r & H). discriminate.
Qed.

(** The groups of the two tables: the same modalities, each with the same
    members. *)
Definition alike (g1 g2 : Dict.t PySet.t) : Prop :=
  forall m,
    match Dict.get m g1, Dict.get m g2 with
    | Some r1, Some r2 => Permutation r1 r2
    | None, None => True
    | _, _ => False
    end.

Lemma groups_alike o1 o2 reg :
  alike (_group_by_modality (_collect_suffix_info o1 reg))
        (_group_by_modality (_collect_suffix_info o2 reg)).
Proof.
  intros m.
  set (t1 := _collect_suffix_info o1 reg). set (t2 := _collect_suffix_info o2 reg).
  destruct (Dict.get m (_group_by_modality t1)) as [r1|] eqn:G1,
           (Dict.get m (_group_by_modality t2)) as [r2|] eqn:G2.
  - apply NoDup_Permutation.
    + apply DictFacts.get_In in G1. exact (Emit.groups_are_sets _ _ _ G1).
    + apply DictFacts.get_In in G2. exact (Emit.groups_are_sets _ _ _ G2).
    + intros t. rewrite (@group_members _ _ t _ G1), (@group_members _ _ t _ G2).
      split; [apply (same_gives o1 o2) | apply (same_gives o2 o1)].
  - assert (P : exists rts, Dict.get m (_group_by_modality t1) = Some rts)
      by eauto.
    apply group_present in P. destruct P as (k & e & Hin & Hm).
    assert (P' : exists rts, Dict.get m (_group_by_modality t2) = Some rts).
    { apply group_present. exists k, e. split; [|assumption].
      now apply (same_items o1 o2). }
    destruct P' as (r & H). congruence.
  - assert (P : exists rts, Dict.get m (_group_by_modality t2) = Some rts)
      by eauto.
    apply group_present in P. destruct P as (k & e & Hin & Hm).
    assert (P' : exists rts, Dict.get m (_group_by_modality t1) = Some rts).
    { apply group_present. exists k, e. split; [|assumption].
      now apply (same_items o2 o1). }
    destruct P' as (r & H). congruence.
  - exact I.
Qed.

Lemma overload_perm o1 o2 (m : string) (r1 r2 : PySet.t) :
  Permutation r1 r2 ->
  _generate_modality_overload o1 m r1 = _generate_modality_overload o2 m r2.
Proof.
  intros P. unfold _generate_modality_overload. cbv zeta.
  now rewrite (Emit.stub_type_invariant o1 o2 P).
Qed.

Lemma ordered_part_alike o1 o2 (g1 g2 : Dict.t PySet.t) :
  alike g1 g2 -> Emit.ordered_part o1 g1 = Emit.ordered_part o2 g2.
Proof.
  intros A. apply flat_map_ext. intros m. specialize (A m).
  destruct (Dict.get m g1), (Dict.get m g2); try contradiction;
    [now apply overload_perm | reflexivity].
Qed.


Lemma import_lines_alike o1 o2 (g1 g2 : Dict.t PySet.t) :
  NoDup (Dict.keys g1) -> NoDup (Dict.keys g2) -> alike g1 g2 ->
  import_lines o1 g1 = import_lines o2 g2.
Proof.
  intros N1 N2 A.
  assert (H : forall ga gb, NoDup (Dict.keys ga) -> alike ga gb ->
            forall t, (exists m rts, In (m, rts) ga /\ In t rts) ->
                      exists m rts, In (m, rts) gb /\ In t rts).
  { intros ga gb Na Aab t (m & rts & Hin & Ht).
    apply Group.In_get in Hin; [|assumption]. specialize (Aab m).
    rewrite Hin in Aab. destruct (Dict.get m gb) as [r|] eqn:G; [|contradiction].
    exists m, r. split; [now apply DictFacts.get_In|].
    now apply (Permutation_in _ Aab). }
  assert (A' : alike g2 g1).
  { intros m. specialize (A m).
    destruct (Dict.get m g1), (Dict.get m g2); try assumption.
    now apply Permutation_sym. }
  unfold import_lines. apply SortFacts.sorted_invariant, NoDup_Permutation.
  - apply SetFacts.iter_NoDup, Emit.imports_needed_NoDup.
  - apply SetFacts.iter_NoDup, Emit.imports_needed_NoDup.
  - intros line.
    rewrite !SetFacts.iter_In, !Emit.imports_needed_In.
    split; intros (t & Ht & Hl); exists t; (split; [|assumption]);
      apply Emit.all_return_types_In; apply Emit.all_return_types_In in Ht.
    + now apply (H g1 g2).
    + now apply (H g2 g1).
Qed.



End Stable.

(** A file system in memory to run [generate_io_stubs] on: a path is the
    list of its components, the state is the list of the files written, and
    a write below a component [missing] raises. *)
Definition memory_files : FileOps (list string) (list (list string * string)) :=
  {| module_dir := ["CLTrainingFramework"; "io"];
     child := fun dir name => dir ++ [name];
     write_text := fun path text fs =>
       if Str.mem "missing" path then None else Some ((path, text) :: fs) |}.

(** The collision set never reaches the stub: two registries with the same
    items and different collision sets make [generate_io_stubs] write the
    same text to the same path, or fail alike. *)
Theorem stub_ignores_collision_set
    (Path FS : Type) (io : FileOps Path FS) (o : SetOrder)
    (its : Dict.t ModalityRecord) (c1 c2 : list string)
    (output_dir : option Path) (fs : FS) :
  generate_io_stubs io o {| items := its; collision_suffix := c1 |} output_dir fs
  = generate_io_stubs io o {| items := its; collision_suffix := c2 |}
      output_dir fs.
Proof.
  unfold generate_io_stubs. cbv zeta.
  now rewrite (Stable.content_of_groups o _ _
                 (Stable.groups_collision_free o its c1 c2)).
Qed.



(** ** Registries whose modalities share no suffix *)

(** No suffix key is registered by two records of the registry. *)
Definition unshared (its : Dict.t ModalityRecord) : Prop :=
  forall pre m rec post,
    its = pre ++ (m, rec) :: post ->
    forall k m' rec',
      In (m', rec') pre -> registers rec' k -> registers rec k -> False.

Module Blocks.

Lemma set_app (V : Type) (k : string) (v : V) (d1 d2 : Dict.t V) :
  ~ In k (Dict.keys d1) ->
  Dict.set k v (d1 ++ d2) = d1 ++ Dict.set k v d2.
Proof.
  induction d1 as [|[k' v'] d1 IH]; simpl; intros N; [reflexivity|].
  destruct (String.eqb k k') eqn:E.
  - apply String.eqb_eq in E. subst. exfalso. apply N. now left.
  - rewrite IH; [reflexivity|]. intros H. apply N. now right.
Qed.

Lemma custom_app coll m custom (d1 d2 : Dict.t SuffixEntry) :
  (forall s h, In (s, Some h) custom -> ~ In (normalize s) (Dict.keys d1)) ->
  collect_custom coll m custom (d1 ++ d2)
  = d1 ++ collect_custom coll m custom d2.
Proof.
  unfold collect_custom. revert d2.
  induction custom as [|[s oh] custom IH]; intros d2 H; simpl; [reflexivity|].
  destruct oh as [h|].
  - rewrite set_app by (apply (H s h); now left).
    apply IH. intros s' h' Hin. apply (H s' h'). now right.
  - apply IH. intros s' h' Hin. apply (H s' h'). now right.
Qed.

Lemma base_app coll m b custom suffixes (d1 d2 : Dict.t SuffixEntry) :
  (forall s, In s suffixes -> Dict.mem (normalize s) custom = false ->
             ~ In (normalize s) (Dict.keys d1)) ->
  collect_base coll m b custom suffixes (d1 ++ d2)
  = d1 ++ collect_base coll m b custom suffixes d2.
Proof.
  unfold collect_base. revert d2.
  induction suffixes as [|s l IH]; intros d2 H; simpl; [reflexivity|].
  destruct (Dict.mem (normalize s) custom) eqn:M; simpl.
  - apply IH. intros s' Hin. apply H. now right.
  - rewrite set_app by (apply H; [now left | assumption]).
    apply IH. intros s' Hin. apply H. now right.
Qed.

(** A record none of whose keys is in the table yet appends its entries. *)
Lemma modality_app o coll (d : Dict.t SuffixEntry) (m : string)
    (rec : ModalityRecord) :
  (forall k, registers rec k -> ~ In k (Dict.keys d)) ->
  collect_modality o coll d (m, rec)
  = d ++ collect_modality o coll [] (m, rec).
Proof.
  intros H. unfold collect_modality. cbv zeta. simpl.
  assert (Hc : forall s h, In (s, Some h) (Custom rec) ->
                           ~ In (normalize s) (Dict.keys d)).
  { intros s h Hin. apply H. left. now exists s, h. }
  destruct (BaseIO rec) as [b|] eqn:B.
  - assert (Hb : forall s,
              In s (iter o (PySet.of_list (base_suffixes rec))) ->
              Dict.mem (normalize s) (Custom rec) = false ->
              ~ In (normalize s) (Dict.keys d)).
    { intros s Hin M. apply H. right. exists b, s.
      repeat split; try assumption.
      now apply SetFacts.of_list_In, (SetFacts.iter_In o). }
    pose proof (@base_app coll m b (Custom rec) _ d [] Hb) as E1.
    rewrite app_nil_r in E1. rewrite E1.
    apply (@custom_app coll m (Custom rec) d _ Hc).
  - pose proof (@custom_app coll m (Custom rec) d [] Hc) as E2.
    now rewrite app_nil_r in E2.
Qed.

Lemma unshared_prefix (l : Dict.t ModalityRecord) (a : string * ModalityRecord) :
  unshared (l ++ [a]) -> unshared l.
Proof.
  intros U pre m rec post E. apply (U pre m rec (post ++ [a])).
  rewrite E, <- app_assoc. reflexivity.
Qed.

Lemma key_registered o coll (l : Dict.t ModalityRecord) (k : string) :
  In k (Dict.keys (fold_left (collect_modality o coll) l [])) ->
  exists m rec, In (m, rec) l /\ registers rec k.
Proof.
  intros Hin. apply DictFacts.mem_keys in Hin.
  rewrite DictFacts.mem_get in Hin.
  rewrite (Overwrite.fold_get_empty _ (Collect.written o coll)) in Hin
    by (intros; apply Collect.get_collect_modality).
  destruct (Overwrite.last_write _ l k) as [e|] eqn:L; [|discriminate].
  apply Overwrite.last_write_some in L. destruct L as ([m rec] & Hl & W).
  exists m, rec. split; [assumption|].
  apply (registers_written o coll m). eauto.
Qed.

(** Without shared suffixes the table is the records' own tables one after
    the other. *)
Lemma table_blocks o coll (its : Dict.t ModalityRecord) :
  unshared its ->
  fold_left (collect_modality o coll) its []
  = flat_map (collect_modality o coll []) its.
Proof.
  induction its as [|[m rec] its IH] using rev_ind; intros U; [reflexivity|].
  rewrite fold_left_app, flat_map_app. simpl. rewrite app_nil_r.
  rewrite IH by (eapply unshared_prefix; eassumption).
  rewrite <- IH by (eapply unshared_prefix; eassumption).
  rewrite modality_app; [reflexivity|].
  intros k R Hin. apply key_registered in Hin.
  destruct Hin as (m' & rec' & Hin & R').
  apply (U its m rec [] eq_refl k m' rec' Hin R' R).
Qed.

(** The entries a record writes carry the record's modality. *)
Lemma block_modalities o coll (m : string) (rec : ModalityRecord) :
  map (fun item : string * SuffixEntry => modality (snd item))
    (collect_modality o coll [] (m, rec))
  = repeat m (List.length (collect_modality o coll [] (m, rec))).
Proof.
  assert (G : Collect.good (collect_modality o coll [] (m, rec))).
  { apply Collect.good_collect_modality. split; constructor. }
  destruct G as [N _].
  assert (H : forall k e, In (k, e) (collect_modality o coll [] (m, rec)) ->
                          modality e = m).
  { intros k e Hin. apply Group.In_get in Hin; [|assumption].
    apply Collect.written_inv in Hin. now destruct Hin as (h & -> & _). }
  clear N. induction (collect_modality o coll [] (m, rec)) as [|[k e] d IH];
    simpl; [reflexivity|].
  rewrite (H k e (or_introl eq_refl)). f_equal.
  apply IH. intros k' e' Hin. apply (H k' e'). now right.
Qed.

Lemma block_empty o1 o2 coll (item : string * ModalityRecord) :
  collect_modality o1 coll [] item = [] ->
  collect_modality o2 coll [] item = [].
Proof.
  intros E.
  destruct (collect_modality o2 coll [] item) as [|[k e] d] eqn:B;
    [reflexivity|].
  assert (W : Collect.written o2 coll item k = Some e).
  { unfold Collect.written. rewrite B. simpl. now rewrite String.eqb_refl. }
  rewrite (written_order_free o2 o1) in W.
  unfold Collect.written in W. rewrite E in W. discriminate.
Qed.

Lemma add_repeat (m : string) (n : nat) (s : PySet.t) :
  fold_left (fun s x => PySet.add x s) (repeat m n) s
  = match n with 0 => s | S _ => PySet.add m s end.
Proof.
  revert s. induction n as [|n IH]; intros s; simpl; [reflexivity|].
  rewrite IH. destruct n; [reflexivity|].
  unfold PySet.add at 1.
  assert (M : Str.mem m (PySet.add m s) = true).
  { apply StrFacts.mem_In, SetFacts.add_In. now left. }
  now rewrite M.
Qed.

(** The modalities seen along the blocks, whatever the traversal order. *)
Lemma seen_order_free o1 o2 coll (its : Dict.t ModalityRecord) (s : PySet.t) :
  fold_left (fun s x => PySet.add x s)
    (map (fun item : string * SuffixEntry => modality (snd item))
       (flat_map (collect_modality o1 coll []) its)) s
  = fold_left (fun s x => PySet.add x s)
      (map (fun item : string * SuffixEntry => modality (snd item))
         (flat_map (collect_modality o2 coll []) its)) s.
Proof.
  revert s. induction its as [|[m rec] its IH]; intros s; [reflexivity|].
  cbn [flat_map]. rewrite !map_app, !fold_left_app, !block_modalities.
  rewrite !add_repeat.
  destruct (collect_modality o1 coll [] (m, rec)) as [|x1 d1] eqn:B1.
  - rewrite (block_empty o1 o2 _ _ B1). simpl. apply IH.
  - destruct (collect_modality o2 coll [] (m, rec)) as [|x2 d2] eqn:B2.
    + rewrite (block_empty o2 o1 _ _ B2) in B1. discriminate.
    + simpl. apply IH.
Qed.

(** Without shared suffixes the groups come in the same order on every
    run. *)
Lemma group_keys_order_free o1 o2 reg :
  unshared (items reg) ->
  Dict.keys (_group_by_modality (_collect_suffix_info o1 reg))
  = Dict.keys (_group_by_modality (_collect_suffix_info o2 reg)).
Proof.
  intros U. rewrite !Group.group_fold, !Group.fold_keys.
  unfold _collect_suffix_info. cbv zeta.
  rewrite !table_blocks by assumption.
  apply seen_order_free.
Qed.

Lemma default_alike (g1 g2 : Dict.t PySet.t) (m : string) :
  Stable.alike g1 g2 ->
  Permutation (Dict.get_default m g1 PySet.empty)
              (Dict.get_default m g2 PySet.empty).
Proof.
  intros A. specialize (A m). unfold Dict.get_default.
  destruct (Dict.get m g1), (Dict.get m g2); try contradiction;
    [assumption | constructor].
Qed.

Lemma other_part_alike o1 o2 (g1 g2 : Dict.t PySet.t) :
  NoDup (Dict.keys g1) -> NoDup (Dict.keys g2) ->
  Dict.keys g1 = Dict.keys g2 -> Stable.alike g1 g2 ->
  Emit.other_part o1 g1 = Emit.other_part o2 g2.
Proof.
  intros N1 N2 K A. unfold Emit.other_part.
  rewrite (@Order.other_part_filter o1 g1 g1)
    by (intros m rts; now apply Group.In_get).
  rewrite (@Order.other_part_filter o2 g2 g2)
    by (intros m rts; now apply Group.In_get).
  rewrite K. apply flat_map_ext. intros m.
  apply Stable.overload_perm, default_alike, A.
Qed.

Lemma content_unshared o1 o2 reg :
  unshared (items reg) ->
  _generate_stub_content o1 (_collect_suffix_info o1 reg)
  = _generate_stub_content o2 (_collect_suffix_info o2 reg).
Proof.
  intros U. unfold _generate_stub_content. f_equal.
  rewrite !Emit.stub_lines_eq.
  assert (A := Stable.groups_alike o1 o2 reg).
  rewrite (Stable.ordered_part_alike o1 o2 A).
  rewrite (@Stable.import_lines_alike o1 o2 _ _
             (Group.keys_NoDup _) (Group.keys_NoDup _) A).
  rewrite (@other_part_alike o1 o2 _ _
             (Group.keys_NoDup _) (Group.keys_NoDup _)
             (@group_keys_order_free o1 o2 reg U) A).
  reflexivity.
Qed.

End Blocks.

(** Two modalities outside the fixed list that share no suffix. *)
Definition audio_binary_apart : SuffixRegistry :=
  {| items :=
       [ ("Audio", Sample.plain Sample.Waveform ["wav"; "FLAC"]);
         ("Binary", Sample.plain Sample.Blob ["dat"]) ];
     collision_suffix := [] |}.

(** When no suffix is registered by two records of the registry, what
    [generate_io_stubs] writes and returns does not depend on the order in
    which the interpreter traverses any set, whatever the modalities are
    called: the table lists the records' suffixes record by record, so the
    groups, and with them the overloads, come in the order of the
    registry. *)
Theorem unshared_registry_stub_is_stable
    (Path FS : Type) (io : FileOps Path FS) (o1 o2 : SetOrder)
    (reg : SuffixRegistry) (output_dir : option Path) (fs : FS) :
  unshared (items reg) ->
  generate_io_stubs io o1 reg output_dir fs
  = generate_io_stubs io o2 reg output_dir fs.
Proof.
  intros U. unfold generate_io_stubs. cbv zeta.
  now rewrite (@Blocks.content_unshared o1 o2 reg U).
Qed.

Lemma plain_registers (b : Handler) (suffixes : list string) (k : string) :
  registers (Sample.plain b suffixes) k ->
  exists s, In s suffixes /\ normalize s = k.
Proof.
  intros [(s & h & [] & _)|(b' & s & _ & Hin & Hk & _)]. eauto.
Qed.

Lemma audio_binary_apart_unshared : unshared (items audio_binary_apart).
Proof.
  intros pre m rec post E k m' rec' Hin R' R.
  destruct pre as [|p1 [|p2 pre]]; simpl in E.
  - contradiction.
  - injection E as <- <- <- <-. destruct Hin as [[= <- <-]|[]].
    apply plain_registers in R', R.
    destruct R' as (s' & Hs' & <-). destruct R as (s & Hs & K).
    simpl in Hs, Hs'.
    destruct Hs as [<-|[]]; destruct Hs' as [<-|[<-|[]]]; discriminate.
  - injection E as _ _ E. destruct pre; discriminate.
Qed.

Lemma unshared_registry_stub_is_stable_witness :
  generate_io_stubs memory_files insertion_order audio_binary_apart None []
  = generate_io_stubs memory_files reversed_order audio_binary_apart None [].
Proof.
  apply (@unshared_registry_stub_is_stable _ _ memory_files
           insertion_order reversed_order audio_binary_apart None []).
  exact audio_binary_apart_unshared.
Defined.

Module SummaryStable.

Lemma dict_as_map (g l : Dict.t PySet.t) :
  (forall m rts, In (m, rts) l -> Dict.get m g = Some rts) ->
  l = map (fun m => (m, Dict.get_default m g PySet.empty)) (Dict.keys l).
Proof.
  unfold Dict.keys. induction l as [|[m rts] l IH]; intros H; [reflexivity|].
  cbn [map fst]. unfold Dict.get_default at 1.
  rewrite (H m rts (or_introl eq_refl)). f_equal.
  apply IH. intros m' rts' Hin. apply H. now right.
Qed.

Lemma rows_by_key o (suffix_info : Dict.t SuffixEntry) (g : Dict.t PySet.t) :
  NoDup (Dict.keys g) ->
  flat_map (summary_rows o suffix_info) g
  = flat_map
      (fun m => summary_rows o suffix_info
                  (m, Dict.get_default m g PySet.empty))
      (Dict.keys g).
Proof.
  intros N.
  rewrite (@dict_as_map g g) at 1 by (intros m rts; now apply Group.In_get).
  generalize (Dict.keys g). intros l.
  induction l as [|m l IH]; simpl; [reflexivity | now rewrite IH].
Qed.

Lemma NoDup_items (V : Type) (d : Dict.t V) : NoDup (Dict.keys d) -> NoDup d.
Proof. apply NoDup_map_inv. Qed.

(** Two traversal orders count the same suffixes for a modality. *)
Lemma count_order_free o1 o2 reg (m : string) :
  List.length (suffixes_of (_collect_suffix_info o1 reg) m)
  = List.length (suffixes_of (_collect_suffix_info o2 reg) m).
Proof.
  unfold suffixes_of. rewrite !length_map.
  apply Permutation_length, NoDup_Permutation.
  - apply NoDup_filter, NoDup_items, Collect.good_collect.
  - apply NoDup_filter, NoDup_items, Collect.good_collect.
  - intros [k e]. rewrite !filter_In.
    split; intros [Hin P]; (split; [|assumption]).
    + now apply (Stable.same_items o1 o2).
    + now apply (Stable.same_items o2 o1).
Qed.

Lemma rows_alike o1 o2 reg (m : string) (r1 r2 : PySet.t) :
  Permutation r1 r2 ->
  summary_rows o1 (_collect_suffix_info o1 reg) (m, r1)
  = summary_rows o2 (_collect_suffix_info o2 reg) (m, r2).
Proof.
  intros P. unfold summary_rows. cbv zeta. cbn [fst snd].
  rewrite (count_order_free o1 o2 reg m).
  assert (S : sorted (iter o1 r1) = sorted (iter o2 r2)).
  { apply SortFacts.sorted_invariant.
    eapply Permutation_trans; [apply Permutation_sym, iter_perm|].
    eapply Permutation_trans; [exact P | apply iter_perm]. }
  now rewrite S.
Qed.

End SummaryStable.

(** The registry of [audio_binary_apart] with two suffixes flagged. *)
Definition audio_binary_flagged : SuffixRegistry :=
  {| items := items audio_binary_apart; collision_suffix := ["wav"; "dat"] |}.

(** When no suffix is registered by two records of the registry, the
    summary is the same on every run up to its collision line: the same
    modalities in the same order, with the same counts and the same sorted
    return types.  The collision line shows the members of the collision set
    in the order the interpreter yields them, so the whole summary is the
    same when that set has at most one member. *)
Theorem unshared_registry_summary_is_stable
    (o1 o2 : SetOrder) (show : list string -> string) (reg : SuffixRegistry) :
  unshared (items reg) ->
  (exists body,
     print_registry_summary o1 show reg
     = body ++ match collision_suffix reg with
               | [] => []
               | _ :: _ =>
                   [(Str.nl ++ "Collision suffixes: "
                       ++ show (iter o1 (collision_suffix reg)))%string]
               end
     /\ print_registry_summary o2 show reg
        = body ++ match collision_suffix reg with
                  | [] => []
                  | _ :: _ =>
                      [(Str.nl ++ "Collision suffixes: "
                          ++ show (iter o2 (collision_suffix reg)))%string]
                  end)
  /\ (List.length (collision_suffix reg) <= 1 ->
      print_registry_summary o1 show reg = print_registry_summary o2 show reg).
Proof.
  intros U.
  assert (B : fold_left
                (fun out item =>
                   out ++ summary_rows o1 (_collect_suffix_info o1 reg) item)
                (_group_by_modality (_collect_suffix_info o1 reg))
                ["IORegistry Summary:"; times "-" 40]
              = fold_left
                  (fun out item =>
                     out ++ summary_rows o2 (_collect_suffix_info o2 reg) item)
                  (_group_by_modality (_collect_suffix_info o2 reg))
                  ["IORegistry Summary:"; times "-" 40]).
  { rewrite !Summary.rows_fold.
    rewrite !SummaryStable.rows_by_key by apply Group.keys_NoDup.
    rewrite (@Blocks.group_keys_order_free o1 o2 reg U).
    assert (E : forall m,
      summary_rows o1 (_collect_suffix_info o1 reg)
        (m, Dict.get_default m
              (_group_by_modality (_collect_suffix_info o1 reg)) PySet.empty)
      = summary_rows o2 (_collect_suffix_info o2 reg)
          (m, Dict.get_default m
                (_group_by_modality (_collect_suffix_info o2 reg))
                PySet.empty)).
    { intros m. apply SummaryStable.rows_alike, Blocks.default_alike,
        Stable.groups_alike. }
    now rewrite (flat_map_ext _ _ E). }
  split.
  - exists (fold_left
              (fun out item =>
                 out ++ summary_rows o2 (_collect_suffix_info o2 reg) item)
              (_group_by_modality (_collect_suffix_info o2 reg))
              ["IORegistry Summary:"; times "-" 40]).
    unfold print_registry_summary. cbv zeta. rewrite B.
    destruct (collision_suffix reg); [now rewrite app_nil_r|]. now split.
  - intros L. unfold print_registry_summary. cbv zeta. rewrite B.
    destruct (collision_suffix reg) as [|c [|c' l]]; [reflexivity| |simpl in L; lia].
    now rewrite !SetFacts.iter_singleton.
Qed.

Lemma unshared_registry_summary_is_stable_witness :
  (exists body,
     print_registry_summary insertion_order (Str.join ", ") audio_binary_flagged
     = body ++ match collision_suffix audio_binary_flagged with
               | [] => []
               | _ :: _ =>
                   [(Str.nl ++ "Collision suffixes: "
                       ++ Str.join ", "
                            (iter insertion_order
                               (collision_suffix audio_binary_flagged)))%string]
               end
     /\ print_registry_summary reversed_order (Str.join ", ") audio_binary_flagged
        = body ++ match collision_suffix audio_binary_flagged with
                  | [] => []
                  | _ :: _ =>
                      [(Str.nl ++ "Collision suffixes: "
                          ++ Str.join ", "
                               (iter reversed_order
                                  (collision_suffix audio_binary_flagged)))%string]
                  end)
  /\ (List.length (collision_suffix audio_binary_flagged) <= 1 ->
      print_registry_summary insertion_order (Str.join ", ") audio_binary_flagged
      = print_registry_summary reversed_order (Str.join ", ")
          audio_binary_flagged).
Proof.
  apply (@unshared_registry_summary_is_stable insertion_order reversed_order
           (Str.join ", ") audio_binary_flagged).
  exact audio_binary_apart_unshared.
Defined.
